(** * quick-lint-js: the symbol automaton of the lexer (fe/lex-tables.h)

    A shallow embedding of [lex_tables]: the character classification table,
    the state enumeration with its bit-packed dispatcher, the transition
    table, the terminal state lookup table and the lookup algorithm
    [try_parse_current_token], followed by the properties of the automaton
    and of the lookup algorithm.

    Conventions of the embedding:
    - [std::uint8_t] values (character classes, states) are [Z]; the bit
      operations of the source are [Z.lor], [Z.land], [Z.shiftl], [Z.shiftr].
    - a [char8] is a [byte]; the input buffer is a [list byte] and a
      [const char8*] into it is an offset ([nat]).
    - reading outside an array or an uninitialised variable has no defined
      result in C++; such a run ends in [Undefined].
    - the [goto]-driven loop runs on fuel, one unit per execution of the
      [transition] block. *)

From Stdlib Require Import Strings.Byte Strings.String.
From Stdlib Require Import ZArith List Bool Lia.
Import ListNotations.

Local Open Scope Z_scope.

(** ** Results of a run *)

Inductive result (A : Type) : Type :=
| Ok (a : A)
| Undefined          (* out-of-bounds read or read of an uninitialised local *)
| AssertionFailure   (* QLJS_ASSERT with a false condition, debug builds *)
| OutOfFuel.

Arguments Ok {A} a.
Arguments Undefined {A}.
Arguments AssertionFailure {A}.
Arguments OutOfFuel {A}.

Definition bind {A B : Type} (m : result A) (k : A -> result B) : result B :=
  match m with
  | Ok a => k a
  | Undefined => Undefined
  | AssertionFailure => AssertionFailure
  | OutOfFuel => OutOfFuel
  end.

Declare Scope result_scope.
Delimit Scope result_scope with result.
Notation "x <- m ;; k" := (bind m (fun x => k))
  (at level 61, m at next level, right associativity) : result_scope.
Notation "m ;;; k" := (bind m (fun _ => k))
  (at level 61, right associativity) : result_scope.
Local Open Scope result_scope.

(** [t[i]] for a constant array [t]. *)
Definition lookup {A : Type} (t : list A) (i : Z) : result A :=
  if i <? 0 then Undefined
  else match nth_error t (Z.to_nat i) with
       | Some a => Ok a
       | None => Undefined
       end.

(** [static_cast<std::uint8_t>(c)] for a [char8]. *)
Definition to_uint8 (c : byte) : Z := Z.of_N (Byte.to_N c).

(** [*p] for a pointer [p] into the buffer [mem]. *)
Definition deref (mem : list byte) (p : nat) : result byte :=
  match nth_error mem p with
  | Some c => Ok c
  | None => Undefined
  end.

(** ** Build configuration *)

(** The two preprocessor switches the lookup algorithm depends on. *)
Record build : Set := {
  QLJS_LEX_DISPATCH_USE_COMPUTED_GOTO : bool;
  debug_build : bool;
}.

(** Modelled from the spec: the macro QLJS_ASSERT comes from
    quick-lint-js/assert.h, which is not part of the sources at hand.  A false
    condition is caught in debug builds; release builds do not check. *)
Definition QLJS_ASSERT (cfg : build) (cond : bool) : result unit :=
  if debug_build cfg && negb cond then AssertionFailure else Ok tt.

(** ** Token kinds and the lexer's state *)

(** Modelled from the spec: [enum class token_type] is declared in
    quick-lint-js/fe/token.h, which is not part of the sources at hand.  These
    are the members [lex_tables] names. *)
Module token_type.
Inductive t : Set :=
| identifier
| bang | percent | ampersand | plus | equal | greater | circumflex | pipe
| bang_equal | ampersand_ampersand | equal_equal | greater_greater
| pipe_pipe | greater_greater_greater
| percent_equal | ampersand_equal | plus_plus | plus_equal | equal_greater
| greater_equal | circumflex_equal | pipe_equal
| bang_equal_equal | ampersand_ampersand_equal | equal_equal_equal
| greater_greater_equal | pipe_pipe_equal | greater_greater_greater_equal.

Definition eq_dec (a b : t) : {a = b} + {a <> b}.
Proof. decide equality. Defined.
End token_type.

(** The parts of [token] and [lexer] the lookup algorithm touches. *)
Record token : Set := {
  type : token_type.t;
  end_ : nat;
}.

Record lexer : Set := {
  input_ : nat;
  last_token_ : token;
}.

Module lex_tables.

(** *** enum character_class *)
Definition bang : Z := 0.
Definition percent : Z := 1.
Definition ampersand : Z := 2.
Definition plus : Z := 3.
Definition equal : Z := 4.
Definition greater : Z := 5.
Definition circumflex : Z := 6.
Definition pipe : Z := 7.
Definition other_character_class : Z := 8.
Definition character_class_count : Z := 9.

(** *** character_class_table *)
Local Abbreviation o := other_character_class (only parsing).

Definition character_class_table : list Z :=
  [ o; o;    o; o; o; o;       o;         o; o; o; o; o;    o;    o;     o;          o
  ; o; o;    o; o; o; o;       o;         o; o; o; o; o;    o;    o;     o;          o
  ; o; bang; o; o; o; percent; ampersand; o; o; o; o; plus; o;    o;     o;          o
  ; o; o;    o; o; o; o;       o;         o; o; o; o; o;    o;    equal; greater;    o
  ; o; o;    o; o; o; o;       o;         o; o; o; o; o;    o;    o;     o;          o
  ; o; o;    o; o; o; o;       o;         o; o; o; o; o;    o;    o;     circumflex; o
  ; o; o;    o; o; o; o;       o;         o; o; o; o; o;    o;    o;     o;          o
  ; o; o;    o; o; o; o;       o;         o; o; o; o; o;    pipe; o;     o;          o
  ; o; o;    o; o; o; o;       o;         o; o; o; o; o;    o;    o;     o;          o
  ; o; o;    o; o; o; o;       o;         o; o; o; o; o;    o;    o;     o;          o
  ; o; o;    o; o; o; o;       o;         o; o; o; o; o;    o;    o;     o;          o
  ; o; o;    o; o; o; o;       o;         o; o; o; o; o;    o;    o;     o;          o
  ; o; o;    o; o; o; o;       o;         o; o; o; o; o;    o;    o;     o;          o
  ; o; o;    o; o; o; o;       o;         o; o; o; o; o;    o;    o;     o;          o
  ; o; o;    o; o; o; o;       o;         o; o; o; o; o;    o;    o;     o;          o
  ; o; o;    o; o; o; o;       o;         o; o; o; o; o;    o;    o;     o;          o
  ].

Definition state_data_bits : Z := 5.
Definition state_data_mask : Z := 31.
Definition state_dispatcher_bits : Z := 3.

(** *** enum state *)
(* Initial states: see enum character_class. *)
(* Possibly-incomplete states: *)
Definition bang_equal : Z := Z.lor 8 (Z.shiftl 0 state_data_bits).
Definition ampersand_ampersand : Z := Z.lor 9 (Z.shiftl 0 state_data_bits).
Definition equal_equal : Z := Z.lor 10 (Z.shiftl 0 state_data_bits).
Definition greater_greater : Z := Z.lor 11 (Z.shiftl 0 state_data_bits).
Definition pipe_pipe : Z := Z.lor 12 (Z.shiftl 0 state_data_bits).
Definition greater_greater_greater : Z := Z.lor 13 (Z.shiftl 0 state_data_bits).
(* Complete/terminal states: *)
Definition done_percent_equal : Z := Z.lor 14 (Z.shiftl 2 state_data_bits).
Definition done_ampersand_equal : Z := Z.lor 15 (Z.shiftl 2 state_data_bits).
Definition done_plus_plus : Z := Z.lor 16 (Z.shiftl 2 state_data_bits).
Definition done_plus_equal : Z := Z.lor 17 (Z.shiftl 2 state_data_bits).
Definition done_equal_greater : Z := Z.lor 18 (Z.shiftl 2 state_data_bits).
Definition done_greater_equal : Z := Z.lor 19 (Z.shiftl 2 state_data_bits).
Definition done_circumflex_equal : Z := Z.lor 20 (Z.shiftl 2 state_data_bits).
Definition done_pipe_equal : Z := Z.lor 21 (Z.shiftl 2 state_data_bits).
Definition done_bang_equal_equal : Z := Z.lor 22 (Z.shiftl 2 state_data_bits).
Definition done_ampersand_ampersand_equal : Z :=
  Z.lor 23 (Z.shiftl 2 state_data_bits).
Definition done_equal_equal_equal : Z := Z.lor 24 (Z.shiftl 2 state_data_bits).
Definition done_greater_greater_equal : Z :=
  Z.lor 25 (Z.shiftl 2 state_data_bits).
Definition done_pipe_pipe_equal : Z := Z.lor 26 (Z.shiftl 2 state_data_bits).
Definition done_greater_greater_greater_equal : Z :=
  Z.lor 27 (Z.shiftl 2 state_data_bits).
(* An unexpected character was detected. *)
Definition retract : Z := Z.shiftl 1 state_data_bits.

Definition input_state_count : Z := 14.

(** Returns true if there are no transitions from this state to any other
    state. *)
Definition is_terminal_state (s : Z) : bool := s >? greater_greater_greater.

(** Precondition: [s] is an initial state. *)
Definition is_initial_state_terminal (s : Z) : bool := s >=? bang_equal.

(** *** transition_table

    Indexed by the class of the next character, then by the current state.
    The source declares [character_class_count + 1] rows and initialises
    [character_class_count] of them; the last row is zero-initialised. *)
Definition transition_table : list (list Z) :=
  [ (* ! *)
    [ retract; retract; retract; retract; retract; retract; retract; retract
    ; retract; retract; retract; retract; retract; retract ]
  ; (* % *)
    [ retract; retract; retract; retract; retract; retract; retract; retract
    ; retract; retract; retract; retract; retract; retract ]
  ; (* & *)
    [ retract; retract; ampersand_ampersand; retract; retract; retract
    ; retract; retract; retract; retract; retract; retract; retract; retract ]
  ; (* + *)
    [ retract; retract; retract; done_plus_plus; retract; retract; retract
    ; retract; retract; retract; retract; retract; retract; retract ]
  ; (* = *)
    [ bang_equal                          (* ! -> != *)
    ; done_percent_equal                  (* % -> %= *)
    ; done_ampersand_equal                (* & -> &= *)
    ; done_plus_equal                     (* + -> += *)
    ; equal_equal                         (* = -> == *)
    ; done_greater_equal                  (* > -> >= *)
    ; done_circumflex_equal               (* ^ -> ^= *)
    ; done_pipe_equal                     (* | -> |= *)
    ; done_bang_equal_equal               (* != -> !== *)
    ; done_ampersand_ampersand_equal      (* && -> &&= *)
    ; done_equal_equal_equal              (* == -> === *)
    ; done_greater_greater_equal          (* >> -> >>= *)
    ; done_pipe_pipe_equal                (* || -> ||= *)
    ; done_greater_greater_greater_equal  (* >>> -> >>>= *) ]
  ; (* > *)
    [ retract; retract; retract; retract
    ; done_equal_greater                  (* = -> => *)
    ; greater_greater                     (* > -> >> *)
    ; retract; retract; retract; retract; retract
    ; greater_greater_greater             (* >> -> >>> *)
    ; retract; retract ]
  ; (* ^ *)
    [ retract; retract; retract; retract; retract; retract; retract; retract
    ; retract; retract; retract; retract; retract; retract ]
  ; (* | *)
    [ retract; retract; retract; retract; retract; retract; retract
    ; pipe_pipe                           (* | -> || *)
    ; retract; retract; retract; retract; retract; retract ]
  ; (* (other) *)
    [ retract; retract; retract; retract; retract; retract; retract; retract
    ; retract; retract; retract; retract; retract; retract ]
  ; (* zero-initialised row *)
    [ 0; 0; 0; 0; 0; 0; 0; 0; 0; 0; 0; 0; 0; 0 ]
  ].

Definition invalid_token_type : token_type.t := token_type.identifier.

(** *** state_to_token *)
Definition state_to_token : list token_type.t :=
  [ token_type.bang                           (* ! *)
  ; token_type.percent                        (* % *)
  ; token_type.ampersand                      (* & *)
  ; token_type.plus                           (* + *)
  ; token_type.equal                          (* = *)
  ; token_type.greater                        (* > *)
  ; token_type.circumflex                     (* ^ *)
  ; token_type.pipe                           (* | *)
  ; token_type.bang_equal                     (* != *)
  ; token_type.ampersand_ampersand            (* && *)
  ; token_type.equal_equal                    (* == *)
  ; token_type.greater_greater                (* >> *)
  ; token_type.pipe_pipe                      (* || *)
  ; token_type.greater_greater_greater        (* >>> *)
  ; token_type.percent_equal                  (* %= *)
  ; token_type.ampersand_equal                (* &= *)
  ; token_type.plus_plus                      (* ++ *)
  ; token_type.plus_equal                     (* += *)
  ; token_type.equal_greater                  (* => *)
  ; token_type.greater_equal                  (* >= *)
  ; token_type.circumflex_equal               (* ^= *)
  ; token_type.pipe_equal                     (* |= *)
  ; token_type.bang_equal_equal               (* !== *)
  ; token_type.ampersand_ampersand_equal      (* &&= *)
  ; token_type.equal_equal_equal              (* === *)
  ; token_type.greater_greater_equal          (* >>= *)
  ; token_type.pipe_pipe_equal                (* ||= *)
  ; token_type.greater_greater_greater_equal  (* >>>= *)
  ].

(** *** try_parse_current_token *)

(** The labels of the function body. *)
Inductive label : Set :=
| transition
| done_unique_terminal
| done_retract.

(** The local variables [input], [old_state] and [new_state]; [old_state]
    is declared without an initialiser. *)
Record locals : Set := {
  input : nat;
  old_state : option Z;
  new_state : Z;
}.

(** What a run leaves behind: the value returned, the lexer as written, and,
    for the statements below, the locals at the [return], whether the run
    went through [done_retract], and how many times the [transition] block
    was executed. *)
Record outcome : Set := {
  returned : bool;
  lexer_after : lexer;
  final : locals;
  retracted : bool;
  iterations : nat;
}.

(** [dispatch_table] of the computed-goto build. *)
Definition dispatch_table : list label :=
  [ transition; done_retract; done_unique_terminal ].

(** [goto* dispatch_table[new_state >> state_data_bits]] *)
Definition computed_goto (s : Z) : result label :=
  lookup dispatch_table (Z.shiftr s state_data_bits).

(** The [dispatch] block of the portable build.  A selector outside the
    three cases leaves the [switch] and falls through into the block that
    follows it, [done_unique_terminal]. *)
Definition dispatch (s : Z) : label :=
  match Z.shiftr s state_data_bits with
  | 0 => transition
  | 1 => done_retract
  | 2 => done_unique_terminal
  | _ => done_unique_terminal
  end.

Section lookup_algorithm.
Variable cfg : build.
Variable mem : list byte.
Variable l : lexer.

(** Where control goes from [dispatch] or through [dispatch_table]. *)
Definition goto_dispatch (s : Z) : result label :=
  if QLJS_LEX_DISPATCH_USE_COMPUTED_GOTO cfg
  then computed_goto s
  else Ok (dispatch s).

Definition exec_done_unique_terminal (r : locals) (was_retract : bool)
    (n : nat) : result outcome :=
  ty <- lookup state_to_token (Z.land (new_state r) state_data_mask) ;;
  Ok {| returned := true;
        lexer_after :=
          {| input_ := input r;
             last_token_ := {| type := ty; end_ := input r |} |};
        final := r;
        retracted := was_retract;
        iterations := n |}.

(** [input] has been advanced at least once when control arrives here, so
    the subtraction on [nat] is the subtraction on the pointer. *)
Definition exec_done_retract (r : locals) (n : nat) : result outcome :=
  let input' := (input r - 1)%nat in
  s <- match old_state r with Some s => Ok s | None => Undefined end ;;
  let new_dispatcher := Z.shiftr s state_data_bits in
  QLJS_ASSERT cfg ((new_dispatcher =? 2) || (new_dispatcher =? 0)) ;;;
  exec_done_unique_terminal
    {| input := input'; old_state := old_state r; new_state := s |} true n.

Fixpoint exec_transition (fuel : nat) (r : locals) (n : nat)
    : result outcome :=
  match fuel with
  | O => OutOfFuel
  | S fuel' =>
    let old := new_state r in
    c <- deref mem (input r) ;;
    cls <- lookup character_class_table (to_uint8 c) ;;
    transitions <- lookup transition_table cls ;;
    s <- lookup transitions old ;;
    let r' := {| input := (input r + 1)%nat;
                 old_state := Some old;
                 new_state := s |} in
    target <- (if QLJS_LEX_DISPATCH_USE_COMPUTED_GOTO cfg
               then computed_goto s
               else if is_terminal_state s
                    then Ok (dispatch s)
                    else Ok transition) ;;
    match target with
    | transition => exec_transition fuel' r' (S n)
    | done_retract => exec_done_retract r' (S n)
    | done_unique_terminal => exec_done_unique_terminal r' false (S n)
    end
  end.

(** The condition of the assertion on the first state. *)
Definition first_state_assertion (s : Z) : bool := negb (s =? retract).

(** The body of [try_parse_current_token], from the first lookup to the
    [return]. *)
Definition run (fuel : nat) : result outcome :=
  let input0 := input_ l in
  c <- deref mem input0 ;;
  s <- lookup character_class_table (to_uint8 c) ;;
  QLJS_ASSERT cfg (first_state_assertion s) ;;;
  let r := {| input := (input0 + 1)%nat;
              old_state := None;
              new_state := s |} in
  target <- (if is_initial_state_terminal s
             then goto_dispatch s
             else Ok transition) ;;
  match target with
  | transition => exec_transition fuel r 0%nat
  | done_retract => exec_done_retract r 0%nat
  | done_unique_terminal => exec_done_unique_terminal r false 0%nat
  end.

(** The function as its caller sees it: the value returned and the lexer
    after the call. *)
Definition try_parse_current_token (fuel : nat) : result (bool * lexer) :=
  o <- run fuel ;;
  Ok (returned o, lexer_after o).
End lookup_algorithm.

End lex_tables.

(** ** The lexicon and the vocabulary of the properties *)

Import lex_tables.

(** The fixed lexicon: every operator spelling with its token kind, in the
    order in which [state_to_token] lists them. *)
Definition lexicon : list (list byte * token_type.t) :=
  [ (list_byte_of_string "!", token_type.bang)
  ; (list_byte_of_string "%", token_type.percent)
  ; (list_byte_of_string "&", token_type.ampersand)
  ; (list_byte_of_string "+", token_type.plus)
  ; (list_byte_of_string "=", token_type.equal)
  ; (list_byte_of_string ">", token_type.greater)
  ; (list_byte_of_string "^", token_type.circumflex)
  ; (list_byte_of_string "|", token_type.pipe)
  ; (list_byte_of_string "!=", token_type.bang_equal)
  ; (list_byte_of_string "&&", token_type.ampersand_ampersand)
  ; (list_byte_of_string "==", token_type.equal_equal)
  ; (list_byte_of_string ">>", token_type.greater_greater)
  ; (list_byte_of_string "||", token_type.pipe_pipe)
  ; (list_byte_of_string ">>>", token_type.greater_greater_greater)
  ; (list_byte_of_string "%=", token_type.percent_equal)
  ; (list_byte_of_string "&=", token_type.ampersand_equal)
  ; (list_byte_of_string "++", token_type.plus_plus)
  ; (list_byte_of_string "+=", token_type.plus_equal)
  ; (list_byte_of_string "=>", token_type.equal_greater)
  ; (list_byte_of_string ">=", token_type.greater_equal)
  ; (list_byte_of_string "^=", token_type.circumflex_equal)
  ; (list_byte_of_string "|=", token_type.pipe_equal)
  ; (list_byte_of_string "!==", token_type.bang_equal_equal)
  ; (list_byte_of_string "&&=", token_type.ampersand_ampersand_equal)
  ; (list_byte_of_string "===", token_type.equal_equal_equal)
  ; (list_byte_of_string ">>=", token_type.greater_greater_equal)
  ; (list_byte_of_string "||=", token_type.pipe_pipe_equal)
  ; (list_byte_of_string ">>>=", token_type.greater_greater_greater_equal)
  ].

Definition spellings : list (list byte) := map fst lexicon.

(** [a] is a prefix of [b]. *)
Definition is_prefix_of (a b : list byte) : Prop := exists t, b = a ++ t.

(** The byte [c] extends the spelling [E] towards a longer lexicon entry. *)
Definition extends (E : list byte) (c : byte) : Prop :=
  exists E', In E' spellings /\ is_prefix_of (E ++ [c]) E'.

(** [E] is a proper prefix of some longer lexicon entry. *)
Definition extensible (E : list byte) : Prop :=
  exists E', In E' spellings /\ is_prefix_of E E' /\
             (length E < length E')%nat.

(** The [k] bytes of the buffer from offset [p] on. *)
Definition bytes_at (mem : list byte) (p k : nat) : list byte :=
  firstn k (skipn p mem).

(** The buffer holds the spelling [E] at offset [p]. *)
Definition matches_at (mem : list byte) (p : nat) (E : list byte) : Prop :=
  bytes_at mem p (length E) = E.

(** The byte after [E], if the buffer has one, does not extend [E]. *)
Definition not_extended_at (mem : list byte) (p : nat) (E : list byte)
    : Prop :=
  forall c, nth_error mem (p + length E) = Some c -> ~ extends E c.

(** The property of maximal munch for a length [k]: the first [k] bytes from
    [p] are a lexicon entry which the following byte does not extend. *)
Definition munch (mem : list byte) (p k : nat) : Prop :=
  (exists E, In E spellings /\ length E = k /\ bytes_at mem p k = E) /\
  not_extended_at mem p (bytes_at mem p k).

(** The class of a byte, as a total function. *)
Definition class_of (c : byte) : Z :=
  nth (Byte.to_nat c) character_class_table other_character_class.

(** The buffer ends with a sentinel byte of the catch-all class. *)
Definition sentinel_terminated (mem : list byte) : Prop :=
  exists body s, mem = body ++ [s] /\ class_of s = other_character_class.

(** The byte at the lexer's cursor and its class. *)
Definition first_class (mem : list byte) (l : lexer) (cls : Z) : Prop :=
  exists c, nth_error mem (input_ l) = Some c /\ class_of c = cls.

(** The number of bytes a call consumed. *)
Definition consumed (l l' : lexer) : nat := (input_ l' - input_ l)%nat.

(** *** The tables as total functions *)

(** [transition_table[cls][s]], [retract] outside the table. *)
Definition next_state (cls s : Z) : Z :=
  match (row <- lookup transition_table cls ;; lookup row s) with
  | Ok s' => s'
  | _ => retract
  end.

(** The lexicon entry of a state: the one its data bits select. *)
Definition entry_of_state (s : Z) : option (list byte * token_type.t) :=
  nth_error lexicon (Z.to_nat (Z.land s state_data_mask)).

Definition spelling_of_state (s : Z) : list byte :=
  match entry_of_state s with Some e => fst e | None => [] end.

Definition kind_of_state (s : Z) : token_type.t :=
  match entry_of_state s with Some e => snd e | None => invalid_token_type end.

(** The states that have a row index in [transition_table]. *)
Definition input_states : list Z := map Z.of_nat (seq 0 14).

(** The possibly-incomplete and the complete states. *)
Definition continuation_states : list Z :=
  [ bang_equal; ampersand_ampersand; equal_equal; greater_greater; pipe_pipe
  ; greater_greater_greater ].

Definition done_states : list Z :=
  [ done_percent_equal; done_ampersand_equal; done_plus_plus; done_plus_equal
  ; done_equal_greater; done_greater_equal; done_circumflex_equal
  ; done_pipe_equal; done_bang_equal_equal; done_ampersand_ampersand_equal
  ; done_equal_equal_equal; done_greater_greater_equal; done_pipe_pipe_equal
  ; done_greater_greater_greater_equal ].

(** The classes a byte can have. *)
Definition byte_classes : list Z := map Z.of_nat (seq 0 9).

(** One edge of the automaton: on a byte of class [cls], state [s] goes to
    [s'], which is not [retract]. *)
Definition edge (s s' : Z) : Prop :=
  exists cls, In cls byte_classes /\ In s input_states /\
              next_state cls s = s' /\ s' <> retract.

(** A path of one or more edges. *)
Inductive path : Z -> Z -> Prop :=
| path_edge s s' : edge s s' -> path s s'
| path_step s s' s'' : edge s s' -> path s' s'' -> path s s''.

(** *** Decision procedures used to check the tables *)

Fixpoint prefixb (a b : list byte) : bool :=
  match a, b with
  | [], _ => true
  | x :: a', y :: b' => Byte.eqb x y && prefixb a' b'
  | _ :: _, [] => false
  end.

Fixpoint bytes_eqb (a b : list byte) : bool :=
  match a, b with
  | [], [] => true
  | x :: a', y :: b' => Byte.eqb x y && bytes_eqb a' b'
  | _, _ => false
  end.

Definition extendsb (E : list byte) (c : byte) : bool :=
  existsb (prefixb (E ++ [c])) spellings.

Definition all_bytes : list byte :=
  flat_map (fun n => match Byte.of_nat n with Some c => [c] | None => [] end)
           (seq 0 256).

Definition in_Zlist (x : Z) (xs : list Z) : bool := existsb (Z.eqb x) xs.

(** What an entry of [transition_table] has to be for the byte [c] and the
    state [s], measured against the lexicon. *)
Definition edge_ok (c : byte) (s : Z) : bool :=
  let s' := next_state (class_of c) s in
  if s' =? retract
  then negb (extendsb (spelling_of_state s) c)
  else bytes_eqb (spelling_of_state s') (spelling_of_state s ++ [c])
       && (in_Zlist s' continuation_states || in_Zlist s' done_states).

(** What a state that resolves to a token has to satisfy. *)
Definition state_ok (s : Z) : bool :=
  match entry_of_state s, lookup state_to_token (Z.land s state_data_mask) with
  | Some (E, k), Ok k' =>
      (if token_type.eq_dec k k' then true else false)
      && (1 <=? length E)%nat && (length E <=? 4)%nat
      && forallb (fun c => negb (class_of c =? other_character_class)) E
      && (negb (in_Zlist s done_states)
          || forallb (fun c => negb (extendsb E c)) all_bytes)
      && (negb (in_Zlist s input_states) || (length E <=? 3)%nat)
  | _, _ => false
  end.

(** The states an entry of [transition_table] may hold. *)
Definition table_states : list Z :=
  retract :: continuation_states ++ done_states.

(** The entry for class [cls] and state [s] exists and holds a state. *)
Definition entry_ok (cls s : Z) : bool :=
  match (row <- lookup transition_table cls ;; lookup row s) with
  | Ok s' => in_Zlist s' table_states
  | _ => false
  end.

(** The outcome of a run that resolves with the locals [r]. *)
Definition resolved (r : locals) (was_retract : bool) (n : nat) : outcome :=
  {| returned := true;
     lexer_after :=
       {| input_ := input r;
          last_token_ := {| type := kind_of_state (new_state r);
                            end_ := input r |} |};
     final := r;
     retracted := was_retract;
     iterations := n |}.

(** Wherever a lexicon entry lies at [p], the buffer goes on after it. *)
Definition readable (mem : list byte) (p : nat) : Prop :=
  forall E, In E spellings -> matches_at mem p E ->
            (p + length E < length mem)%nat.

(** The outcome [o] of a call at offset [p] is the munch of a lexicon entry:
    the spelling [E] of the state the run resolved with lies at [p], the byte
    after it does not extend it, the lexer is left one past [E] with the kind
    of [E], and the run took one iteration per byte after the first, the
    byte that made it retract included. *)
Definition resolves (mem : list byte) (p : nat) (o : outcome) : Prop :=
  let s := new_state (final o) in
  let E := spelling_of_state s in
  In s (input_states ++ done_states) /\
  In (E, kind_of_state s) lexicon /\
  matches_at mem p E /\
  not_extended_at mem p E /\
  returned o = true /\
  lexer_after o = {| input_ := (p + length E)%nat;
                     last_token_ := {| type := kind_of_state s;
                                       end_ := (p + length E)%nat |} |} /\
  input (final o) = (p + length E)%nat /\
  (if retracted o
   then old_state (final o) = Some s /\ iterations o = length E /\
        In s input_states
   else iterations o = (length E - 1)%nat /\ In s done_states).

(** The eight classes that start an operator. *)
Definition operator_classes : list Z :=
  [ bang; percent; ampersand; plus; equal; greater; circumflex; pipe ].

(** The lexer as the caller finds it after a token of kind [k] that ends
    at offset [e]. *)
Definition lexer_at (e : nat) (k : token_type.t) : lexer :=
  {| input_ := e; last_token_ := {| type := k; end_ := e |} |}.

(** No spelling has two kinds. *)
Definition entry_unambiguous (e : list byte * token_type.t) : bool :=
  forallb (fun e' => negb (bytes_eqb (fst e) (fst e'))
                     || (if token_type.eq_dec (snd e) (snd e')
                         then true else false)) lexicon.

(** The data bits of a state, its index in [state_to_token]. *)
Definition state_data (s : Z) : Z := Z.land s state_data_mask.

(** Along an entry of the transition table the data bits grow. *)
Definition entry_climbs (cls s : Z) : bool :=
  let s' := next_state cls s in
  (s' =? retract) || (state_data s <? state_data s').

(** No other entry of the transition table holds the state this one holds. *)
Definition entry_alone (cls s : Z) : bool :=
  let s' := next_state cls s in
  (s' =? retract)
  || forallb (fun cls' =>
       forallb (fun s0 =>
         negb (next_state cls' s0 =? s') || ((cls' =? cls) && (s0 =? s)))
         input_states) byte_classes.

(** Some entry of the transition table holds the state [s']. *)
Definition has_predecessor (s' : Z) : bool :=
  existsb (fun cls => existsb (fun s => next_state cls s =? s') input_states)
          byte_classes.

(** The spelling of an initial state is the byte of its class. *)
Definition initial_ok (c : byte) : bool :=
  (class_of c =? other_character_class)
  || bytes_eqb (spelling_of_state (class_of c)) [c].

(** The length of the longest spelling of the lexicon. *)
Definition longest_spelling : nat :=
  fold_right Nat.max 0%nat (map (@length byte) spellings).

(** *** Inputs for the examples *)

(** The bytes of [s] followed by the null byte that ends a padded string. *)
Definition buffer_of (s : string) : list byte :=
  list_byte_of_string s ++ [x00].

(** A lexer with its cursor at offset [p] and no token yet. *)
Definition lexer_from (p : nat) : lexer :=
  {| input_ := p;
     last_token_ := {| type := invalid_token_type; end_ := 0%nat |} |}.

Definition portable_debug : build :=
  {| QLJS_LEX_DISPATCH_USE_COMPUTED_GOTO := false; debug_build := true |}.

Definition computed_goto_release : build :=
  {| QLJS_LEX_DISPATCH_USE_COMPUTED_GOTO := true; debug_build := false |}.

(** The kind and the end of the token a call at offset 0 leaves. *)
Definition scan (cfg : build) (s : string) : result (token_type.t * nat) :=
  r <- try_parse_current_token cfg (buffer_of s) (lexer_from 0) 3 ;;
  Ok (type (last_token_ (snd r)), input_ (snd r)).

(** *** Vocabulary of the further properties *)

(** The bytes that start an operator, in the order of their classes. *)
Definition operator_bytes : list byte := list_byte_of_string "!%&+=>^|".

(** The classes of the bytes that can stand second or later in an operator. *)
Definition continuing_classes : list Z :=
  [ ampersand; plus; equal; greater; pipe ].

(** What [character_class_table] has to hold for the byte [c]. *)
Definition classifier_ok (c : byte) : bool :=
  let cls := class_of c in
  if existsb (Byte.eqb c) operator_bytes
  then negb (cls =? other_character_class)
       && match nth_error operator_bytes (Z.to_nat cls) with
          | Some c' => Byte.eqb c' c
          | None => false
          end
  else cls =? other_character_class.

(** The row of [transition_table] for the class [cls] has one entry per
    input state. *)
Definition row_ok (cls : Z) : bool :=
  match lookup transition_table cls with
  | Ok row => Z.of_nat (length row) =? input_state_count
  | _ => false
  end.

(** The entry for [cls] and [s] is [retract] unless [cls] is a continuing
    class. *)
Definition entry_stops (cls s : Z) : bool :=
  in_Zlist cls continuing_classes || (next_state cls s =? retract).

(** The kind of a lexicon entry is not the invalid kind and belongs to no
    other spelling. *)
Definition kind_ok (e : list byte * token_type.t) : bool :=
  (if token_type.eq_dec (snd e) invalid_token_type then false else true)
  && forallb (fun e' => (if token_type.eq_dec (snd e) (snd e')
                         then bytes_eqb (fst e) (fst e') else true)) lexicon.

(** What a caller can tell of a call from offset [p]: the value returned, the
    kind of the token and the number of bytes consumed. *)
Definition observe (p : nat) (r : result (bool * lexer))
    : result (bool * token_type.t * nat) :=
  x <- r ;;
  Ok (fst x, type (last_token_ (snd x)), (input_ (snd x) - p)%nat).

(** What the [transition] block, entered with the locals [r] and [fuel],
    can end in: a token that ends within the bytes the tree still allows and
    within the buffer; an undefined read, only if the buffer ends within
    those bytes; no failed assertion; no fuel left, only if there was less
    than the tree is deep. *)
Definition outcome_ok (mem : list byte) (fuel : nat) (r : locals)
    (res : result outcome) : Prop :=
  let d := length (spelling_of_state (new_state r)) in
  match res with
  | Ok o =>
      returned o = true
      /\ In (new_state (final o)) (input_states ++ done_states)
      /\ lexer_after o
         = lexer_at (input (final o)) (kind_of_state (new_state (final o)))
      /\ (input r <= input (final o) <= input r + (4 - d))%nat
      /\ (input (final o) <= length mem)%nat
  | Undefined => (length mem <= input r + (3 - d))%nat
  | AssertionFailure => False
  | OutOfFuel => (fuel + d < 4)%nat
  end.

(** The longest entry among [entries] that is a prefix of [rest], the first
    such in case of a tie. *)
Definition longest_prefix_entry (entries : list (list byte * token_type.t))
    (rest : list byte) : option (list byte * token_type.t) :=
  fold_right
    (fun e best =>
       if prefixb (fst e) rest
       then match best with
            | Some e' => if (length (fst e) <? length (fst e'))%nat
                         then best else Some e
            | None => Some e
            end
       else best)
    None entries.

(** Longest match against the lexicon, on the bytes from the cursor on. *)
Definition longest_match (mem : list byte) (p : nat)
    : option (list byte * token_type.t) :=
  longest_prefix_entry lexicon (skipn p mem).

(** * Properties of the tables *)

(** ** The decision procedures decide *)

Lemma in_Zlist_spec x xs : in_Zlist x xs = true <-> In x xs.
Proof.
  unfold in_Zlist. rewrite existsb_exists. split.
  - intros (y & Hy & E). apply Z.eqb_eq in E. now subst.
  - intros H. exists x. split; [assumption | apply Z.eqb_refl].
Qed.

Lemma in_Zlist_false x xs : in_Zlist x xs = false -> ~ In x xs.
Proof.
  intros H HIn. apply in_Zlist_spec in HIn. congruence.
Qed.

Lemma byte_eqb_eq x y : Byte.eqb x y = true <-> x = y.
Proof.
  split; [apply Byte.byte_dec_bl | apply Byte.byte_dec_lb].
Qed.

Lemma prefixb_spec a b : prefixb a b = true <-> is_prefix_of a b.
Proof.
  revert b. induction a as [|x a IH]; intros b; simpl.
  - split; [intros _; now exists b | reflexivity].
  - destruct b as [|y b].
    + split; [discriminate | intros [t Ht]; discriminate].
    + rewrite andb_true_iff, byte_eqb_eq, IH. split.
      * intros [-> [t ->]]. now exists t.
      * intros [t Ht]. injection Ht as -> ->. split; [reflexivity | now exists t].
Qed.

Lemma bytes_eqb_spec a b : bytes_eqb a b = true <-> a = b.
Proof.
  revert b. induction a as [|x a IH]; intros [|y b]; simpl;
    try (split; [discriminate | intros; discriminate]).
  - split; reflexivity.
  - rewrite andb_true_iff, byte_eqb_eq, IH. split.
    + now intros [-> ->].
    + intros [= -> ->]. now split.
Qed.

Lemma extendsb_spec E c : extendsb E c = true <-> extends E c.
Proof.
  unfold extendsb, extends. rewrite existsb_exists.
  split; intros (E' & HIn & H); exists E'; split; try assumption;
    now apply prefixb_spec.
Qed.

Lemma all_bytes_complete c : In c all_bytes.
Proof.
  unfold all_bytes. apply in_flat_map. exists (Byte.to_nat c). split.
  - apply in_seq. pose proof (Byte.to_nat_bounded c). lia.
  - rewrite Byte.of_to_nat. now left.
Qed.

Lemma in_input_states s : In s input_states <-> 0 <= s <= 13.
Proof.
  unfold input_states. rewrite in_map_iff. split.
  - intros (n & <- & Hn). apply in_seq in Hn. lia.
  - intros H. exists (Z.to_nat s). split; [lia | apply in_seq; lia].
Qed.

Lemma in_byte_classes cls : In cls byte_classes <-> 0 <= cls <= 8.
Proof.
  unfold byte_classes. rewrite in_map_iff. split.
  - intros (n & <- & Hn). apply in_seq in Hn. lia.
  - intros H. exists (Z.to_nat cls). split; [lia | apply in_seq; lia].
Qed.

(** ** The tables, checked entry by entry *)

Lemma classes_checked :
  forallb (fun c => match lookup character_class_table (to_uint8 c) with
                    | Ok cls => (cls =? class_of c) && in_Zlist cls byte_classes
                    | _ => false
                    end) all_bytes = true.
Proof. vm_compute. reflexivity. Qed.

Lemma entries_checked :
  forallb (fun cls => forallb (entry_ok cls) input_states) byte_classes = true.
Proof. vm_compute. reflexivity. Qed.

Lemma edges_checked :
  forallb (fun c => forallb (edge_ok c) input_states) all_bytes = true.
Proof. vm_compute. reflexivity. Qed.

Lemma states_checked :
  forallb state_ok (input_states ++ done_states) = true.
Proof. vm_compute. reflexivity. Qed.

Lemma continuation_states_checked :
  forallb (fun s => in_Zlist s input_states && negb (s =? retract)
                    && negb (in_Zlist s done_states))
          continuation_states = true.
Proof. vm_compute. reflexivity. Qed.

Lemma done_states_checked :
  forallb (fun s => negb (in_Zlist s input_states) && negb (s =? retract)
                    && is_terminal_state s
                    && (Z.shiftr s state_data_bits =? 2))
          done_states = true.
Proof. vm_compute. reflexivity. Qed.

Lemma input_states_checked :
  forallb (fun s => negb (is_terminal_state s)
                    && (Z.shiftr s state_data_bits =? 0)
                    && negb (s =? retract))
          input_states = true.
Proof. vm_compute. reflexivity. Qed.

Lemma initial_states_checked : forallb initial_ok all_bytes = true.
Proof. vm_compute. reflexivity. Qed.

Lemma lexicon_checked :
  forallb (fun E => (1 <=? length E)%nat
                    && forallb (fun c => negb (class_of c =? other_character_class)) E)
          spellings = true.
Proof. vm_compute. reflexivity. Qed.

(** ** The checks, as facts *)

Ltac split_andb :=
  repeat match goal with
         | H : _ && _ = true |- _ => apply andb_true_iff in H; destruct H
         | H : negb _ = true |- _ => apply negb_true_iff in H
         end.

Lemma lookup_class c :
  lookup character_class_table (to_uint8 c) = Ok (class_of c).
Proof.
  pose proof classes_checked as H. rewrite forallb_forall in H.
  specialize (H c (all_bytes_complete c)).
  destruct (lookup character_class_table (to_uint8 c)); try discriminate.
  split_andb. apply Z.eqb_eq in H. now subst.
Qed.

Lemma class_of_range c : 0 <= class_of c <= 8.
Proof.
  pose proof classes_checked as H. rewrite forallb_forall in H.
  specialize (H c (all_bytes_complete c)). rewrite lookup_class in H.
  split_andb. now apply in_byte_classes, in_Zlist_spec.
Qed.

Lemma entry_defined cls s :
  0 <= cls <= 8 -> 0 <= s <= 13 ->
  (row <- lookup transition_table cls ;; lookup row s)
    = Ok (next_state cls s)
  /\ In (next_state cls s) table_states.
Proof.
  intros Hc Hs. pose proof entries_checked as H.
  rewrite forallb_forall in H.
  specialize (H cls (proj2 (in_byte_classes cls) Hc)).
  rewrite forallb_forall in H.
  specialize (H s (proj2 (in_input_states s) Hs)).
  unfold entry_ok in H. unfold next_state.
  destruct (row <- lookup transition_table cls ;; lookup row s);
    try discriminate.
  split; [reflexivity | now apply in_Zlist_spec].
Qed.

Lemma input_fact s :
  0 <= s <= 13 ->
  is_terminal_state s = false /\ Z.shiftr s state_data_bits = 0 /\
  s <> retract.
Proof.
  intros Hs. pose proof input_states_checked as H.
  rewrite forallb_forall in H.
  specialize (H s (proj2 (in_input_states s) Hs)). split_andb.
  repeat split; try assumption.
  - now apply Z.eqb_eq.
  - now apply Z.eqb_neq.
Qed.

Lemma continuation_fact s :
  In s continuation_states ->
  0 <= s <= 13 /\ s <> retract /\ ~ In s done_states.
Proof.
  intros Hs. pose proof continuation_states_checked as H.
  rewrite forallb_forall in H. specialize (H s Hs). split_andb.
  repeat split.
  - now apply in_input_states, in_Zlist_spec.
  - now apply in_input_states, in_Zlist_spec.
  - now apply Z.eqb_neq.
  - now apply in_Zlist_false.
Qed.

Lemma done_fact s :
  In s done_states ->
  ~ 0 <= s <= 13 /\ s <> retract /\ is_terminal_state s = true /\
  Z.shiftr s state_data_bits = 2.
Proof.
  intros Hs. pose proof done_states_checked as H.
  rewrite forallb_forall in H. specialize (H s Hs). split_andb.
  repeat split; try assumption.
  - intros Hr. apply in_input_states in Hr.
    now apply in_Zlist_false in H.
  - now apply Z.eqb_neq.
  - now apply Z.eqb_eq.
Qed.

Lemma table_states_cases s :
  In s table_states ->
  s = retract \/ In s continuation_states \/ In s done_states.
Proof.
  unfold table_states. intros [H | H]; [now left | right].
  now apply in_app_or.
Qed.

Lemma edge_fact c s :
  0 <= s <= 13 ->
  let s' := next_state (class_of c) s in
  (s' = retract /\ ~ extends (spelling_of_state s) c)
  \/ (s' <> retract
      /\ spelling_of_state s' = spelling_of_state s ++ [c]
      /\ (In s' continuation_states \/ In s' done_states)).
Proof.
  intros Hs s'. pose proof edges_checked as H.
  rewrite forallb_forall in H. specialize (H c (all_bytes_complete c)).
  rewrite forallb_forall in H.
  specialize (H s (proj2 (in_input_states s) Hs)).
  unfold edge_ok in H. fold s' in H.
  destruct (s' =? retract) eqn:Hr.
  - left. split; [now apply Z.eqb_eq |].
    apply negb_true_iff in H. intros He. apply extendsb_spec in He.
    congruence.
  - right. apply andb_true_iff in H as [Hsp Hst].
    split; [now apply Z.eqb_neq |].
    split; [now apply bytes_eqb_spec |].
    apply orb_true_iff in Hst. destruct Hst as [Hst | Hst];
      apply in_Zlist_spec in Hst; tauto.
Qed.

Lemma state_fact s :
  In s (input_states ++ done_states) ->
  exists E k,
    entry_of_state s = Some (E, k) /\
    lookup state_to_token (Z.land s state_data_mask) = Ok k /\
    (1 <= length E <= 4)%nat /\
    (forall c, In c E -> class_of c <> other_character_class) /\
    (In s done_states -> forall c, ~ extends E c) /\
    (In s input_states -> (length E <= 3)%nat).
Proof.
  intros Hs. pose proof states_checked as H.
  rewrite forallb_forall in H. specialize (H s Hs). unfold state_ok in H.
  destruct (entry_of_state s) as [[E k]|]; try discriminate.
  destruct (lookup state_to_token (Z.land s state_data_mask)) as [k'| | |];
    try discriminate.
  apply andb_true_iff in H as [H Hinp]. apply andb_true_iff in H as [H Hdone].
  apply andb_true_iff in H as [H Hcls]. apply andb_true_iff in H as [H Hle4].
  apply andb_true_iff in H as [Heq Hle1]. exists E, k.
  destruct (token_type.eq_dec k k') as [<-|]; try discriminate.
  repeat split.
  - now apply Nat.leb_le.
  - now apply Nat.leb_le.
  - intros c Hc. rewrite forallb_forall in Hcls. specialize (Hcls c Hc).
    now apply negb_true_iff, Z.eqb_neq in Hcls.
  - intros Hd c He. apply in_Zlist_spec in Hd. rewrite Hd in Hdone.
    cbn [negb orb] in Hdone. rewrite forallb_forall in Hdone.
    specialize (Hdone c (all_bytes_complete c)).
    apply negb_true_iff in Hdone. apply extendsb_spec in He. congruence.
  - intros Hi. apply in_Zlist_spec in Hi. rewrite Hi in Hinp.
    cbn [negb orb] in Hinp. now apply Nat.leb_le.
Qed.

Lemma initial_fact c :
  class_of c <> other_character_class ->
  0 <= class_of c <= 7 /\ spelling_of_state (class_of c) = [c].
Proof.
  intros Hc. pose proof initial_states_checked as H.
  rewrite forallb_forall in H. specialize (H c (all_bytes_complete c)).
  unfold initial_ok in H. apply orb_true_iff in H. destruct H as [H | H].
  - apply Z.eqb_eq in H. contradiction.
  - apply bytes_eqb_spec in H. split; [| assumption].
    pose proof (class_of_range c). unfold other_character_class in Hc. lia.
Qed.

Lemma spelling_fact E :
  In E spellings ->
  exists E0 c, E = E0 ++ [c] /\ class_of c <> other_character_class.
Proof.
  intros HE. pose proof lexicon_checked as H.
  rewrite forallb_forall in H. specialize (H E HE).
  apply andb_true_iff in H as [Hlen Hcls].
  destruct (exists_last (l := E)) as (E0 & c & ->).
  - intros ->. discriminate.
  - exists E0, c. split; [reflexivity |].
    rewrite forallb_forall in Hcls.
    assert (Hc : In c (E0 ++ [c])) by (apply in_or_app; right; now left).
    specialize (Hcls c Hc).
    now apply negb_true_iff, Z.eqb_neq in Hcls.
Qed.

(** * The lookup algorithm, block by block *)

Lemma kind_of_state_lookup s :
  In s (input_states ++ done_states) ->
  lookup state_to_token (Z.land s state_data_mask) = Ok (kind_of_state s).
Proof.
  intros Hs. destruct (state_fact s Hs) as (E & k & He & Hk & _).
  unfold kind_of_state. now rewrite He.
Qed.

Lemma entry_in_lexicon s :
  In s (input_states ++ done_states) ->
  In (spelling_of_state s, kind_of_state s) lexicon
  /\ In (spelling_of_state s) spellings.
Proof.
  intros Hs. destruct (state_fact s Hs) as (E & k & He & _).
  unfold spelling_of_state, kind_of_state. rewrite He. simpl.
  unfold entry_of_state in He. apply nth_error_In in He.
  split; [assumption |].
  unfold spellings. now apply (in_map fst) in He.
Qed.

Lemma exec_done_unique_terminal_ok r w n :
  In (new_state r) (input_states ++ done_states) ->
  exec_done_unique_terminal r w n = Ok (resolved r w n).
Proof.
  intros Hs. unfold exec_done_unique_terminal.
  now rewrite (kind_of_state_lookup _ Hs).
Qed.

Lemma exec_done_retract_ok cfg i s s' n :
  0 <= s <= 13 ->
  exec_done_retract cfg
    {| input := (i + 1)%nat; old_state := Some s; new_state := s' |} n
  = Ok (resolved {| input := i; old_state := Some s; new_state := s |}
                 true n).
Proof.
  intros Hs. destruct (input_fact s Hs) as (_ & Hd & _).
  unfold exec_done_retract. cbn [input old_state bind].
  rewrite Hd. unfold QLJS_ASSERT. cbn [Z.eqb orb negb].
  rewrite andb_false_r. cbn [bind]. rewrite Nat.add_sub.
  apply exec_done_unique_terminal_ok. cbn [new_state].
  apply in_or_app. left. now apply in_input_states.
Qed.

Lemma bind_entry {B : Type} cls s (K : Z -> result B) :
  0 <= cls <= 8 -> 0 <= s <= 13 ->
  (transitions <- lookup transition_table cls ;;
   s' <- lookup transitions s ;; K s') = K (next_state cls s).
Proof.
  intros Hc Hs. destruct (entry_defined cls s Hc Hs) as [H _].
  destruct (lookup transition_table cls) as [row| | |];
    cbn [bind] in *; try discriminate.
  now rewrite H.
Qed.

(** One execution of the [transition] block from an input state: the byte
    under the cursor is classified and the table consulted; [retract] resolves
    with the state held before, at the cursor as it stood; a terminal state
    resolves one byte further; any other state goes round again.  The build
    configuration does not show. *)
Lemma exec_transition_unfold cfg mem fuel r n :
  0 <= new_state r <= 13 ->
  exec_transition cfg mem (S fuel) r n =
  match nth_error mem (input r) with
  | None => Undefined
  | Some c =>
    let s := new_state r in
    let s' := next_state (class_of c) s in
    if s' =? retract
    then Ok (resolved {| input := input r; old_state := Some s;
                         new_state := s |} true (S n))
    else
      let r' := {| input := (input r + 1)%nat; old_state := Some s;
                   new_state := s' |} in
      if is_terminal_state s'
      then Ok (resolved r' false (S n))
      else exec_transition cfg mem fuel r' (S n)
  end.
Proof.
  intros Hs. cbn [exec_transition]. unfold deref.
  destruct (nth_error mem (input r)) as [c|]; [| reflexivity].
  cbn [bind]. rewrite lookup_class. cbn [bind].
  rewrite (bind_entry _ _ _ (class_of_range c) Hs). cbv zeta.
  destruct (entry_defined _ _ (class_of_range c) Hs) as [_ Hin].
  set (s' := next_state (class_of c) (new_state r)) in *. clearbody s'.
  apply table_states_cases in Hin. destruct Hin as [-> | [Hc | Hd]].
  - rewrite Z.eqb_refl.
    replace (if QLJS_LEX_DISPATCH_USE_COMPUTED_GOTO cfg
             then computed_goto retract
             else if is_terminal_state retract
                  then Ok (dispatch retract) else Ok transition)
      with (Ok done_retract)
      by (destruct (QLJS_LEX_DISPATCH_USE_COMPUTED_GOTO cfg); reflexivity).
    cbn [bind]. now apply exec_done_retract_ok.
  - destruct (continuation_fact _ Hc) as (Hr & Hne & _).
    destruct (input_fact _ Hr) as (Ht & Hsel & _).
    apply Z.eqb_neq in Hne. rewrite Hne, Ht.
    unfold computed_goto. rewrite Hsel.
    replace (if QLJS_LEX_DISPATCH_USE_COMPUTED_GOTO cfg
             then lookup dispatch_table 0 else Ok transition)
      with (Ok transition)
      by (destruct (QLJS_LEX_DISPATCH_USE_COMPUTED_GOTO cfg); reflexivity).
    reflexivity.
  - destruct (done_fact _ Hd) as (_ & Hne & Ht & Hsel).
    apply Z.eqb_neq in Hne. rewrite Hne, Ht.
    unfold computed_goto, dispatch. rewrite Hsel.
    replace (if QLJS_LEX_DISPATCH_USE_COMPUTED_GOTO cfg
             then lookup dispatch_table 2 else Ok done_unique_terminal)
      with (Ok done_unique_terminal)
      by (destruct (QLJS_LEX_DISPATCH_USE_COMPUTED_GOTO cfg); reflexivity).
    cbn [bind]. apply exec_done_unique_terminal_ok. cbn [new_state].
    apply in_or_app. now right.
Qed.

(** The first lookup: the class of the first byte is the first state, the
    assertion on it holds, and control reaches the [transition] block, for
    the catch-all class through the dispatcher. *)
Lemma run_unfold cfg mem l fuel :
  run cfg mem l fuel =
  match nth_error mem (input_ l) with
  | None => Undefined
  | Some c =>
    exec_transition cfg mem fuel
      {| input := (input_ l + 1)%nat; old_state := None;
         new_state := class_of c |} 0%nat
  end.
Proof.
  unfold run, deref.
  destruct (nth_error mem (input_ l)) as [c|]; [| reflexivity].
  cbn [bind]. rewrite lookup_class. cbn [bind].
  pose proof (class_of_range c) as Hc.
  assert (Ha : first_state_assertion (class_of c) = true).
  { unfold first_state_assertion. apply negb_true_iff, Z.eqb_neq.
    change retract with 32. lia. }
  unfold QLJS_ASSERT. rewrite Ha. cbn [negb]. rewrite andb_false_r.
  cbn [bind].
  destruct (is_initial_state_terminal (class_of c)) eqn:Hi.
  - unfold is_initial_state_terminal in Hi. change bang_equal with 8 in Hi.
    assert (He : class_of c = 8) by lia. rewrite He.
    unfold goto_dispatch.
    destruct (QLJS_LEX_DISPATCH_USE_COMPUTED_GOTO cfg); reflexivity.
  - reflexivity.
Qed.

(** * Spellings in the buffer *)

Lemma bytes_at_nth mem p k i :
  (i < k)%nat -> nth_error (bytes_at mem p k) i = nth_error mem (p + i).
Proof.
  intros Hi. unfold bytes_at. rewrite nth_error_firstn, nth_error_skipn.
  destruct (Nat.ltb_spec i k); [reflexivity | lia].
Qed.

Lemma bytes_at_snoc mem p k c :
  nth_error mem (p + k) = Some c ->
  bytes_at mem p (S k) = bytes_at mem p k ++ [c].
Proof.
  unfold bytes_at. rewrite <- nth_error_skipn.
  generalize (skipn p mem) as rest. induction k as [|k IH]; intros [|x rest] H;
    try discriminate.
  - injection H as ->. reflexivity.
  - cbn [nth_error] in H. rewrite firstn_cons, (IH _ H). reflexivity.
Qed.

Lemma matches_at_nth mem p E i :
  matches_at mem p E -> (i < length E)%nat ->
  nth_error mem (p + i) = nth_error E i.
Proof.
  intros H Hi. rewrite <- (bytes_at_nth mem p (length E) i Hi). now rewrite H.
Qed.

Lemma matches_at_one mem p c :
  nth_error mem p = Some c -> matches_at mem p [c].
Proof.
  intros H. unfold matches_at. cbn [length].
  rewrite (bytes_at_snoc mem p 0 c); [reflexivity |].
  now rewrite Nat.add_0_r.
Qed.

Lemma matches_at_snoc mem p E c :
  matches_at mem p E -> nth_error mem (p + length E) = Some c ->
  matches_at mem p (E ++ [c]).
Proof.
  unfold matches_at. intros HE Hc. rewrite length_app. cbn [length].
  rewrite Nat.add_1_r, (bytes_at_snoc _ _ _ _ Hc). now rewrite HE.
Qed.

Lemma matches_at_prefix mem p E E' :
  matches_at mem p E -> matches_at mem p E' ->
  (length E <= length E')%nat -> is_prefix_of E E'.
Proof.
  unfold matches_at, bytes_at. intros HE HE' Hlen.
  exists (skipn (length E) E').
  rewrite <- (firstn_skipn (length E) E') at 1. f_equal.
  rewrite <- HE' at 1. rewrite firstn_firstn.
  now replace (Nat.min (length E) (length E')) with (length E) by lia.
Qed.

(** A longer entry at the same place shows the next byte extends the
    shorter one. *)
Lemma matches_at_extends mem p E E' :
  matches_at mem p E -> matches_at mem p E' -> In E' spellings ->
  (length E < length E')%nat ->
  exists c, nth_error mem (p + length E) = Some c /\ extends E c.
Proof.
  intros HE HE' HIn Hlen.
  destruct (nth_error E' (length E)) as [c|] eqn:Hc.
  2:{ apply nth_error_None in Hc. lia. }
  assert (Hm : nth_error mem (p + length E) = Some c).
  { now rewrite (matches_at_nth _ _ _ _ HE' Hlen). }
  exists c. split; [assumption |]. exists E'. split; [assumption |].
  apply (matches_at_prefix mem p); try assumption.
  - now apply matches_at_snoc.
  - rewrite length_app. cbn [length]. lia.
Qed.

(** At most one entry lies at [p] with neither a longer entry behind it. *)
Lemma munch_unique mem p E E' :
  In E spellings -> In E' spellings ->
  matches_at mem p E -> matches_at mem p E' ->
  not_extended_at mem p E -> not_extended_at mem p E' ->
  E = E'.
Proof.
  intros HIn HIn' HE HE' Hn Hn'.
  destruct (Nat.lt_trichotomy (length E) (length E')) as [Hlt | [Heq | Hgt]].
  - destruct (matches_at_extends _ _ _ _ HE HE' HIn' Hlt) as (c & Hc & Hx).
    now destruct (Hn c Hc).
  - unfold matches_at in HE, HE'. rewrite <- HE, <- HE'. now rewrite Heq.
  - destruct (matches_at_extends _ _ _ _ HE' HE HIn Hgt) as (c & Hc & Hx).
    now destruct (Hn' c Hc).
Qed.

(** With a sentinel at the end, the buffer goes on after every entry. *)
Lemma sentinel_readable mem p : sentinel_terminated mem -> readable mem p.
Proof.
  intros (body & s & -> & Hs) E HIn HE.
  destruct (spelling_fact E HIn) as (E0 & c & -> & Hc).
  assert (Hi : (length E0 < length (E0 ++ [c]))%nat)
    by (rewrite length_app; cbn [length]; lia).
  pose proof (matches_at_nth _ _ _ _ HE Hi) as Hn.
  rewrite (nth_error_app2 E0 [c]), Nat.sub_diag in Hn by lia.
  cbn [nth_error] in Hn.
  rewrite !length_app. cbn [length].
  destruct (Nat.lt_ge_cases (p + length E0) (length body)) as [Hlt | Hge];
    [lia |].
  rewrite (nth_error_app2 body [s]) in Hn by assumption.
  destruct (p + length E0 - length body)%nat as [|k] eqn:Hk.
  - cbn [nth_error] in Hn. injection Hn as ->. contradiction.
  - cbn [nth_error] in Hn. destruct k; discriminate.
Qed.

(** * The lookup algorithm munches *)

Lemma exec_transition_munch cfg mem p :
  readable mem p ->
  forall fuel s os n,
    0 <= s <= 13 ->
    matches_at mem p (spelling_of_state s) ->
    (4 <= fuel + length (spelling_of_state s))%nat ->
    S n = length (spelling_of_state s) ->
    exists o,
      exec_transition cfg mem fuel
        {| input := (p + length (spelling_of_state s))%nat;
           old_state := os; new_state := s |} n = Ok o
      /\ resolves mem p o.
Proof.
  intros Hread fuel. induction fuel as [|fuel IH]; intros s os n Hs Hm Hf Hn.
  - assert (Hin : In s (input_states ++ done_states))
      by (apply in_or_app; left; now apply in_input_states).
    destruct (state_fact s Hin) as (E & k & He & _ & _ & _ & _ & H3).
    unfold spelling_of_state in Hf. rewrite He in Hf. cbn [fst] in Hf.
    specialize (H3 (proj2 (in_input_states s) Hs)). lia.
  - assert (Hin : In s (input_states ++ done_states))
      by (apply in_or_app; left; now apply in_input_states).
    destruct (entry_in_lexicon s Hin) as [Hlex Hsp].
    pose proof (Hread _ Hsp Hm) as Hlt.
    destruct (nth_error mem (p + length (spelling_of_state s))) as [c|] eqn:Hc.
    2:{ apply nth_error_None in Hc. lia. }
    rewrite exec_transition_unfold by assumption.
    cbn [input new_state]. rewrite Hc. cbv zeta.
    destruct (edge_fact c s Hs) as [[Hr Hx] | (Hr & Hsp' & Hst)].
    + rewrite Hr, Z.eqb_refl. eexists. split; [reflexivity |].
      unfold resolves. cbn [resolved final new_state old_state retracted
                            iterations returned lexer_after input].
      repeat split; try assumption.
      * intros c' Hc'. rewrite Hc in Hc'. now injection Hc' as <-.
      * now apply in_input_states.
    + apply Z.eqb_neq in Hr. rewrite Hr.
      set (s' := next_state (class_of c) s) in *.
      assert (Hm' : matches_at mem p (spelling_of_state s'))
        by (rewrite Hsp'; now apply matches_at_snoc).
      assert (Hlen : length (spelling_of_state s')
                     = S (length (spelling_of_state s)))
        by (rewrite Hsp', length_app; cbn [length]; lia).
      replace (p + length (spelling_of_state s) + 1)%nat
        with (p + length (spelling_of_state s'))%nat by lia.
      destruct Hst as [Hcont | Hdone].
      * destruct (continuation_fact _ Hcont) as (Hr' & _).
        destruct (input_fact _ Hr') as (Ht & _). rewrite Ht.
        apply IH; try assumption; lia.
      * destruct (done_fact _ Hdone) as (_ & _ & Ht & _). rewrite Ht.
        assert (Hin' : In s' (input_states ++ done_states))
          by (apply in_or_app; now right).
        destruct (entry_in_lexicon s' Hin') as [Hlex' _].
        destruct (state_fact s' Hin') as (E' & k' & He' & _ & _ & _ & Hleaf & _).
        eexists. split; [reflexivity |].
        unfold resolves. cbn [resolved final new_state old_state retracted
                              iterations returned lexer_after input].
        repeat split; try assumption.
        -- intros c' _. unfold spelling_of_state. rewrite He'. cbn [fst].
           now apply Hleaf.
        -- lia.
Qed.

(** From a first byte outside the catch-all class, with fuel for three
    iterations, a run resolves, and what it resolves to is the munch. *)
Lemma run_munch cfg mem l fuel c :
  nth_error mem (input_ l) = Some c ->
  class_of c <> other_character_class ->
  readable mem (input_ l) ->
  (3 <= fuel)%nat ->
  exists o, run cfg mem l fuel = Ok o /\ resolves mem (input_ l) o.
Proof.
  intros Hc Hcls Hread Hf. rewrite run_unfold, Hc.
  destruct (initial_fact c Hcls) as [Hr Hsp].
  pose proof (exec_transition_munch cfg mem (input_ l) Hread fuel
                (class_of c) None 0%nat) as H.
  rewrite Hsp in H. cbn [length] in H. apply H.
  - lia.
  - now apply matches_at_one.
  - lia.
  - reflexivity.
Qed.

Lemma operator_class_not_other cls :
  In cls operator_classes -> cls <> other_character_class.
Proof.
  intros H. apply in_Zlist_spec in H. intros ->. discriminate.
Qed.

Lemma longest_spelling_is_4 : longest_spelling = 4%nat.
Proof. reflexivity. Qed.

Lemma try_parse_of_run cfg mem l fuel o :
  run cfg mem l fuel = Ok o ->
  try_parse_current_token cfg mem l fuel = Ok (returned o, lexer_after o).
Proof.
  intros H. unfold try_parse_current_token. now rewrite H.
Qed.

Lemma resolves_length mem p o :
  resolves mem p o ->
  (1 <= length (spelling_of_state (new_state (final o))) <= 4)%nat
  /\ (iterations o <= 3)%nat.
Proof.
  intros (Hin & _ & _ & _ & _ & _ & _ & Hit).
  destruct (state_fact _ Hin) as (E & k & He & _ & Hlen & _ & _ & H3).
  unfold spelling_of_state in *. rewrite He in *. cbn [fst] in *.
  split; [assumption |].
  destruct (retracted o).
  - destruct Hit as (_ & -> & Hi). now apply H3.
  - destruct Hit as (-> & _). lia.
Qed.

(** A call within the contract resolves to the munch. *)
Lemma valid_call_resolves cfg mem l fuel cls :
  sentinel_terminated mem ->
  first_class mem l cls ->
  cls <> other_character_class ->
  (3 <= fuel)%nat ->
  exists o, run cfg mem l fuel = Ok o /\ resolves mem (input_ l) o.
Proof.
  intros Hs (c & Hc & <-) Hcls Hf.
  apply (run_munch cfg mem l fuel c); try assumption.
  now apply sentinel_readable.
Qed.

(** Fuel beyond the depth of the tree and the build configuration change
    nothing, whatever the buffer holds. *)
Lemma exec_transition_enough cfg cfg' mem :
  forall fuel fuel' r n,
    0 <= new_state r <= 13 ->
    (4 <= fuel + length (spelling_of_state (new_state r)))%nat ->
    (4 <= fuel' + length (spelling_of_state (new_state r)))%nat ->
    exec_transition cfg mem fuel r n = exec_transition cfg' mem fuel' r n.
Proof.
  induction fuel as [|fuel IH]; intros fuel' r n Hs Hf Hf';
    assert (Hin : In (new_state r) (input_states ++ done_states))
      by (apply in_or_app; left; now apply in_input_states);
    destruct (state_fact _ Hin) as (E & k & He & _ & _ & _ & _ & H3);
    specialize (H3 (proj2 (in_input_states _) Hs));
    unfold spelling_of_state in Hf, Hf'; rewrite He in Hf, Hf';
    cbn [fst] in Hf, Hf'; [lia |].
  destruct fuel' as [|fuel']; [lia |].
  rewrite !exec_transition_unfold by assumption.
  destruct (nth_error mem (input r)) as [c|]; [| reflexivity]. cbv zeta.
  destruct (edge_fact c (new_state r) Hs) as [[Hr _] | (Hr & Hsp & Hst)].
  - now rewrite Hr, Z.eqb_refl.
  - apply Z.eqb_neq in Hr. rewrite Hr.
    destruct (is_terminal_state (next_state (class_of c) (new_state r)))
      eqn:Ht; [reflexivity |].
    destruct Hst as [Hc | Hd].
    2:{ destruct (done_fact _ Hd) as (_ & _ & Ht' & _). congruence. }
    destruct (continuation_fact _ Hc) as (Hr' & _).
    apply IH; cbn [new_state]; try assumption;
      rewrite Hsp, length_app; unfold spelling_of_state; rewrite He;
      cbn [fst length]; lia.
Qed.

Lemma run_enough cfg cfg' mem l l' fuel fuel' :
  input_ l = input_ l' -> (3 <= fuel)%nat -> (3 <= fuel')%nat ->
  run cfg mem l fuel = run cfg' mem l' fuel'.
Proof.
  intros Hl Hf Hf'. rewrite !run_unfold, <- Hl.
  destruct (nth_error mem (input_ l)) as [c|]; [| reflexivity].
  pose proof (class_of_range c) as Hc.
  assert (Hs : 0 <= class_of c <= 13) by lia.
  assert (Hin : In (class_of c) (input_states ++ done_states))
    by (apply in_or_app; left; now apply in_input_states).
  destruct (state_fact _ Hin) as (E & k & He & _ & Hlen & _).
  apply exec_transition_enough; cbn [new_state]; try assumption;
    unfold spelling_of_state; rewrite He; cbn [fst]; lia.
Qed.

(** * The properties of the lookup algorithm *)

(** C1 (maximal munch).  For a sentinel-terminated buffer whose byte under
    the cursor has one of the eight operator classes, the call returns, and
    the number of bytes it consumed is the greatest [k] such that the first
    [k] bytes from the cursor are a lexicon entry which the byte after them
    does not extend to a longer entry. *)
Theorem maximal_munch cfg mem l fuel cls :
  sentinel_terminated mem ->
  first_class mem l cls ->
  In cls operator_classes ->
  (3 <= fuel)%nat ->
  exists b l',
    try_parse_current_token cfg mem l fuel = Ok (b, l')
    /\ munch mem (input_ l) (consumed l l')
    /\ forall k, munch mem (input_ l) k -> (k <= consumed l l')%nat.
Proof.
  intros Hs Hfirst Hcls Hf.
  destruct (valid_call_resolves cfg mem l fuel cls Hs Hfirst
              (operator_class_not_other _ Hcls) Hf) as (o & Hrun & Hres).
  exists (returned o), (lexer_after o).
  split; [now apply try_parse_of_run |].
  destruct Hres as (Hin & Hlex & Hm & Hn & _ & Hl & _).
  set (E := spelling_of_state (new_state (final o))) in *.
  assert (Hc : consumed l (lexer_after o) = length E)
    by (unfold consumed; rewrite Hl; cbn [input_]; lia).
  assert (HE : In E spellings) by (apply (entry_in_lexicon _ Hin)).
  rewrite Hc. split.
  - split.
    + exists E. repeat split; assumption.
    + now rewrite Hm.
  - intros k [(Ek & HEk & Hlen & Hb) _].
    destruct (Nat.le_gt_cases k (length E)) as [Hle | Hgt]; [assumption |].
    assert (Hmk : matches_at mem (input_ l) Ek)
      by (unfold matches_at; now rewrite Hlen).
    rewrite <- Hlen in Hgt.
    destruct (matches_at_extends _ _ _ _ Hm Hmk HEk Hgt) as (c & Hc' & Hx).
    now destruct (Hn c Hc').
Qed.

(** C6 (bounded consumption).  For a sentinel-terminated buffer whose byte
    under the cursor is outside the catch-all class, the call returns having
    consumed at least one byte and at most four, the length of the longest
    spelling of the lexicon. *)
Theorem bounded_consumption cfg mem l fuel cls :
  sentinel_terminated mem ->
  first_class mem l cls ->
  cls <> other_character_class ->
  (3 <= fuel)%nat ->
  exists b l',
    try_parse_current_token cfg mem l fuel = Ok (b, l')
    /\ (1 <= consumed l l' <= 4)%nat
    /\ longest_spelling = 4%nat
    /\ In (list_byte_of_string ">>>=") spellings.
Proof.
  intros Hs Hfirst Hcls Hf.
  destruct (valid_call_resolves cfg mem l fuel cls Hs Hfirst Hcls Hf)
    as (o & Hrun & Hres).
  exists (returned o), (lexer_after o).
  split; [now apply try_parse_of_run |].
  destruct (resolves_length _ _ _ Hres) as [Hlen _].
  destruct Hres as (_ & _ & _ & _ & _ & Hl & _).
  split; [| split; [reflexivity |]].
  - unfold consumed. rewrite Hl. cbn [input_]. lia.
  - unfold spellings, lexicon. cbn [map fst]. repeat (try (left; reflexivity); right).
Qed.

(** C8 (termination).  For a sentinel-terminated buffer whose byte under the
    cursor is outside the catch-all class, the classify-and-transition loop
    terminates: with fuel for as many iterations as the longest spelling has
    bytes (4) the run resolves, it executes the [transition] block at most
    that many times, and more fuel does not change its outcome. *)
Theorem transition_loop_terminates cfg mem l cls :
  sentinel_terminated mem ->
  first_class mem l cls ->
  cls <> other_character_class ->
  exists o,
    run cfg mem l longest_spelling = Ok o
    /\ (iterations o <= longest_spelling)%nat
    /\ forall fuel, (longest_spelling <= fuel)%nat ->
                    run cfg mem l fuel = Ok o.
Proof.
  intros Hs Hfirst Hcls. rewrite longest_spelling_is_4.
  destruct (valid_call_resolves cfg mem l 4 cls Hs Hfirst Hcls)
    as (o & Hrun & Hres); [lia |].
  exists o. split; [assumption |].
  destruct (resolves_length _ _ _ Hres) as [_ Hit]. split; [lia |].
  intros fuel Hfuel. rewrite <- Hrun. apply run_enough; try reflexivity; lia.
Qed.

(** C10 (no failure return).  For a sentinel-terminated buffer whose byte
    under the cursor is outside the catch-all class, the call returns [true],
    and it leaves a lexer whose token kind is that of a lexicon entry lying
    at the old cursor and whose cursor and token end are both one past that
    entry. *)
Theorem try_parse_returns_true cfg mem l fuel cls :
  sentinel_terminated mem ->
  first_class mem l cls ->
  cls <> other_character_class ->
  (3 <= fuel)%nat ->
  exists E k,
    In (E, k) lexicon
    /\ matches_at mem (input_ l) E
    /\ try_parse_current_token cfg mem l fuel
       = Ok (true, {| input_ := (input_ l + length E)%nat;
                      last_token_ :=
                        {| type := k;
                           end_ := (input_ l + length E)%nat |} |}).
Proof.
  intros Hs Hfirst Hcls Hf.
  destruct (valid_call_resolves cfg mem l fuel cls Hs Hfirst Hcls Hf)
    as (o & Hrun & Hres).
  destruct Hres as (_ & Hlex & Hm & _ & Hret & Hl & _).
  exists (spelling_of_state (new_state (final o))),
         (kind_of_state (new_state (final o))).
  split; [assumption |]. split; [assumption |].
  rewrite (try_parse_of_run _ _ _ _ _ Hrun). now rewrite Hret, Hl.
Qed.

(** C9 (determinism).  The result of a call is a function of the buffer and
    of the cursor alone: two calls on the same buffer from the same cursor
    give the same result, whatever else the two lexers hold, whichever way
    the function was built and however much fuel (beyond three iterations)
    each run has; in particular they give the same kind and consume the same
    number of bytes. *)
Theorem try_parse_deterministic cfg1 cfg2 mem l1 l2 fuel1 fuel2 :
  input_ l1 = input_ l2 ->
  (3 <= fuel1)%nat -> (3 <= fuel2)%nat ->
  try_parse_current_token cfg1 mem l1 fuel1
  = try_parse_current_token cfg2 mem l2 fuel2.
Proof.
  intros Hl Hf1 Hf2. unfold try_parse_current_token.
  now rewrite (run_enough cfg1 cfg2 mem l1 l2 fuel1 fuel2 Hl Hf1 Hf2).
Qed.

(** ** Entries standing alone *)

Lemma lexicon_unambiguous_checked :
  forallb entry_unambiguous lexicon = true.
Proof. vm_compute. reflexivity. Qed.

Lemma lexicon_functional E k k' :
  In (E, k) lexicon -> In (E, k') lexicon -> k = k'.
Proof.
  intros H H'. pose proof lexicon_unambiguous_checked as Hc.
  rewrite forallb_forall in Hc. specialize (Hc _ H).
  unfold entry_unambiguous in Hc. rewrite forallb_forall in Hc.
  specialize (Hc _ H'). cbn [fst snd] in Hc.
  rewrite (proj2 (bytes_eqb_spec E E) eq_refl) in Hc. cbn [negb orb] in Hc.
  now destruct (token_type.eq_dec k k').
Qed.

Lemma spelling_classes E :
  In E spellings ->
  E <> [] /\ forall c, In c E -> class_of c <> other_character_class.
Proof.
  intros HE. pose proof lexicon_checked as H.
  rewrite forallb_forall in H. specialize (H E HE).
  apply andb_true_iff in H as [Hlen Hcls]. split.
  - intros ->. discriminate.
  - intros c Hc. rewrite forallb_forall in Hcls. specialize (Hcls c Hc).
    now apply negb_true_iff, Z.eqb_neq in Hcls.
Qed.

Lemma in_lexicon_spellings E k : In (E, k) lexicon -> In E spellings.
Proof. intros H. unfold spellings. now apply (in_map fst) in H. Qed.

Lemma extensible_extends E : extensible E -> exists c, extends E c.
Proof.
  intros (E' & HIn & [t ->] & Hlen). rewrite length_app in Hlen.
  destruct t as [|c t]; [cbn [length] in Hlen; lia |].
  exists c, (E ++ c :: t). split; [assumption |].
  exists t. now rewrite <- app_assoc.
Qed.

(** An entry followed by a byte that does not extend it is all the buffer
    has to hold for the run to stay inside it. *)
Lemma standalone_readable mem p E c :
  matches_at mem p E ->
  nth_error mem (p + length E) = Some c ->
  ~ extends E c ->
  readable mem p.
Proof.
  intros Hm Hc Hx E' HIn' Hm'.
  assert (Hlt : (p + length E < length mem)%nat)
    by (apply nth_error_Some; congruence).
  destruct (Nat.le_gt_cases (length E') (length E)) as [Hle | Hgt]; [lia |].
  destruct (matches_at_extends _ _ _ _ Hm Hm' HIn' Hgt) as (c' & Hc' & Hx').
  rewrite Hc in Hc'. injection Hc' as <-. contradiction.
Qed.

Lemma standalone_resolves cfg mem l fuel E k c :
  In (E, k) lexicon ->
  matches_at mem (input_ l) E ->
  nth_error mem (input_ l + length E) = Some c ->
  ~ extends E c ->
  (3 <= fuel)%nat ->
  exists o,
    run cfg mem l fuel = Ok o /\ resolves mem (input_ l) o
    /\ spelling_of_state (new_state (final o)) = E
    /\ kind_of_state (new_state (final o)) = k.
Proof.
  intros Hlex Hm Hc Hx Hf.
  pose proof (in_lexicon_spellings _ _ Hlex) as HE.
  destruct (spelling_classes E HE) as [Hne Hcls].
  destruct E as [|c0 E0]; [contradiction |].
  assert (Hc0 : nth_error mem (input_ l) = Some c0).
  { rewrite <- (Nat.add_0_r (input_ l)).
    rewrite (matches_at_nth _ _ _ 0 Hm); [reflexivity | cbn [length]; lia]. }
  destruct (run_munch cfg mem l fuel c0 Hc0) as (o & Hrun & Hres);
    try assumption.
  { apply Hcls. now left. }
  { exact (standalone_readable _ _ _ _ Hm Hc Hx). }
  exists o. split; [assumption |]. split; [assumption |].
  destruct Hres as (Hin & Hlex' & Hm' & Hn' & _).
  assert (Heq : spelling_of_state (new_state (final o)) = c0 :: E0).
  { apply (munch_unique mem (input_ l)); try assumption.
    - now apply (in_lexicon_spellings _ (kind_of_state (new_state (final o)))).
    - intros c' Hc'. rewrite Hc in Hc'. now injection Hc' as <-. }
  split; [assumption |].
  rewrite Heq in Hlex'. exact (lexicon_functional _ _ _ Hlex' Hlex).
Qed.

(** C7 (exhaustiveness).  Every entry of the lexicon, lying at the cursor and
    followed by a byte that does not extend it, resolves to its own token
    kind with its own length: the call returns [true] and leaves the kind of
    the entry in the token and the cursor and the token end one past the
    entry. *)
Theorem lexicon_entry_resolves cfg mem l fuel E k c :
  In (E, k) lexicon ->
  matches_at mem (input_ l) E ->
  nth_error mem (input_ l + length E) = Some c ->
  ~ extends E c ->
  (3 <= fuel)%nat ->
  try_parse_current_token cfg mem l fuel
    = Ok (true, lexer_at (input_ l + length E) k)
  /\ consumed l (lexer_at (input_ l + length E) k) = length E.
Proof.
  intros Hlex Hm Hc Hx Hf.
  destruct (standalone_resolves cfg mem l fuel E k c Hlex Hm Hc Hx Hf)
    as (o & Hrun & Hres & HE & Hk).
  destruct Hres as (_ & _ & _ & _ & Hret & Hl & _).
  rewrite HE, Hk in Hl. split.
  - rewrite (try_parse_of_run _ _ _ _ _ Hrun). now rewrite Hret, Hl.
  - unfold consumed, lexer_at. cbn [input_]. lia.
Qed.

(** C2 (retract correctness).  Let the entry [E] of the lexicon be a proper
    prefix of a longer entry, lie at the cursor and be followed by a byte [c]
    that does not extend it.  Then the call returns the kind of [E], having
    consumed [length E] bytes: the cursor is one past [E], the byte [c] is
    not consumed.  The run went through [done_retract]; the state it resolved
    with is the state [s] held before the transition on [c], which failed
    ([transition_table] holds [retract] there); [s] is the state of [E] and
    is not [retract]. *)
Theorem retract_resolves_previous_state cfg mem l fuel E k c :
  In (E, k) lexicon ->
  extensible E ->
  matches_at mem (input_ l) E ->
  nth_error mem (input_ l + length E) = Some c ->
  ~ extends E c ->
  (3 <= fuel)%nat ->
  exists o s,
    run cfg mem l fuel = Ok o
    /\ try_parse_current_token cfg mem l fuel
       = Ok (true, lexer_at (input_ l + length E) k)
    /\ consumed l (lexer_after o) = length E
    /\ retracted o = true
    /\ old_state (final o) = Some s
    /\ new_state (final o) = s
    /\ next_state (class_of c) s = retract
    /\ s <> retract
    /\ spelling_of_state s = E
    /\ kind_of_state s = k.
Proof.
  intros Hlex Hext Hm Hc Hx Hf.
  destruct (standalone_resolves cfg mem l fuel E k c Hlex Hm Hc Hx Hf)
    as (o & Hrun & Hres & HE & Hk).
  destruct Hres as (Hin & _ & _ & _ & Hret & Hl & _ & Hit).
  rewrite HE, Hk in Hl.
  exists o, (new_state (final o)).
  assert (Hretr : retracted o = true).
  { destruct (retracted o); [reflexivity |]. destruct Hit as [_ Hd].
    destruct (state_fact _ Hin) as (E' & k' & He' & _ & _ & _ & Hleaf & _).
    unfold spelling_of_state in HE. rewrite He' in HE. cbn [fst] in HE.
    subst E'. destruct (extensible_extends E Hext) as (c' & Hc').
    now destruct (Hleaf Hd c'). }
  rewrite Hretr in Hit. destruct Hit as (Hold & _ & Hi).
  apply in_input_states in Hi.
  repeat split; try assumption.
  - rewrite (try_parse_of_run _ _ _ _ _ Hrun). now rewrite Hret, Hl.
  - unfold consumed. rewrite Hl. unfold lexer_at. cbn [input_]. lia.
  - destruct (edge_fact c _ Hi) as [[Hr _] | (_ & Hsp & Hst)];
      [assumption | exfalso].
    apply Hx. exists (E ++ [c]). split.
    + rewrite <- HE, <- Hsp. apply entry_in_lexicon.
      apply in_or_app. destruct Hst as [Hst | Hst]; [left | now right].
      now apply in_input_states, continuation_fact.
    + exists []. now rewrite app_nil_r.
  - now apply input_fact.
Qed.

(** ** The automaton is a tree *)

Lemma entries_climb_checked :
  forallb (fun cls => forallb (entry_climbs cls) input_states) byte_classes
  = true.
Proof. vm_compute. reflexivity. Qed.

Lemma entries_alone_checked :
  forallb (fun cls => forallb (entry_alone cls) input_states) byte_classes
  = true.
Proof. vm_compute. reflexivity. Qed.

Lemma predecessors_checked :
  forallb has_predecessor (continuation_states ++ done_states) = true.
Proof. vm_compute. reflexivity. Qed.

Lemma edge_climbs s s' : edge s s' -> state_data s < state_data s'.
Proof.
  intros (cls & Hcls & Hs & <- & Hr). pose proof entries_climb_checked as H.
  rewrite forallb_forall in H. specialize (H cls Hcls).
  rewrite forallb_forall in H. specialize (H s Hs).
  unfold entry_climbs in H. apply orb_true_iff in H. destruct H as [H | H].
  - apply Z.eqb_eq in H. contradiction.
  - now apply Z.ltb_lt.
Qed.

Lemma path_climbs s s' : path s s' -> state_data s < state_data s'.
Proof.
  induction 1 as [s s' He | s s' s'' He _ IH].
  - now apply edge_climbs.
  - apply edge_climbs in He. lia.
Qed.

Lemma entry_injective cls1 s1 cls2 s2 :
  In cls1 byte_classes -> In s1 input_states ->
  In cls2 byte_classes -> In s2 input_states ->
  next_state cls1 s1 = next_state cls2 s2 ->
  next_state cls1 s1 <> retract ->
  cls1 = cls2 /\ s1 = s2.
Proof.
  intros Hc1 Hs1 Hc2 Hs2 Heq Hr. pose proof entries_alone_checked as H.
  rewrite forallb_forall in H. specialize (H cls2 Hc2).
  rewrite forallb_forall in H. specialize (H s2 Hs2).
  unfold entry_alone in H. apply orb_true_iff in H. destruct H as [H | H].
  - apply Z.eqb_eq in H. congruence.
  - rewrite forallb_forall in H. specialize (H cls1 Hc1).
    rewrite forallb_forall in H. specialize (H s1 Hs1).
    rewrite Heq, Z.eqb_refl in H. cbn [negb orb] in H.
    apply andb_true_iff in H as [H1 H2].
    apply Z.eqb_eq in H1, H2. now split.
Qed.

(** C5 (tree invariant).  Over the byte classes and the states that index
    [transition_table], the graph of the entries other than [retract] is a
    tree: no path of edges leads from a state back to itself; no two distinct
    pairs of byte class and current state hold the same state other than
    [retract]; and every possibly-incomplete state and every complete state
    is held by exactly one entry. *)
Theorem automaton_is_a_tree :
  (forall s, ~ path s s)
  /\ (forall cls1 s1 cls2 s2,
        In cls1 byte_classes -> In s1 input_states ->
        In cls2 byte_classes -> In s2 input_states ->
        next_state cls1 s1 = next_state cls2 s2 ->
        next_state cls1 s1 <> retract ->
        cls1 = cls2 /\ s1 = s2)
  /\ (forall s',
        In s' (continuation_states ++ done_states) ->
        exists cls s,
          In cls byte_classes /\ In s input_states
          /\ next_state cls s = s'
          /\ forall cls0 s0,
               In cls0 byte_classes -> In s0 input_states ->
               next_state cls0 s0 = s' -> cls0 = cls /\ s0 = s).
Proof.
  split; [| split].
  - intros s Hp. apply path_climbs in Hp. lia.
  - exact entry_injective.
  - intros s' Hs'. pose proof predecessors_checked as H.
    rewrite forallb_forall in H. specialize (H s' Hs').
    unfold has_predecessor in H. apply existsb_exists in H.
    destruct H as (cls & Hcls & H). apply existsb_exists in H.
    destruct H as (s & Hs & H). apply Z.eqb_eq in H.
    exists cls, s. split; [assumption |]. split; [assumption |].
    split; [assumption |]. intros cls0 s0 Hc0 Hs0 H0.
    apply entry_injective; try assumption; [congruence |].
    rewrite H0. apply in_app_or in Hs'. destruct Hs' as [Hc | Hd].
    + now apply continuation_fact.
    + now apply done_fact.
Qed.

(** ** A first byte of the catch-all class *)

(** Whatever follows it, a first byte of the catch-all class starts the loop
    in the state [bang_equal], whose number the catch-all class shares. *)
Lemma catch_all_start_unfold cfg mem l fuel c :
  nth_error mem (input_ l) = Some c ->
  class_of c = other_character_class ->
  run cfg mem l fuel
  = exec_transition cfg mem fuel
      {| input := (input_ l + 1)%nat; old_state := None;
         new_state := bang_equal |} 0%nat.
Proof.
  intros Hc Hcls. now rewrite run_unfold, Hc, Hcls.
Qed.

(** Whenever the [transition] block resolves it has read the byte under the
    cursor and counted at least one more iteration. *)
Lemma exec_transition_reads cfg mem :
  forall fuel r n o,
    0 <= new_state r <= 13 ->
    exec_transition cfg mem fuel r n = Ok o ->
    (S n <= iterations o)%nat
    /\ exists c, nth_error mem (input r) = Some c.
Proof.
  induction fuel as [|fuel IH]; intros r n o Hs H; [discriminate |].
  rewrite exec_transition_unfold in H by assumption.
  destruct (nth_error mem (input r)) as [c|] eqn:Hc; [| discriminate].
  split; [| now exists c]. cbv zeta in H.
  destruct (next_state (class_of c) (new_state r) =? retract) eqn:Hr.
  - injection H as <-. cbn [resolved iterations]. lia.
  - destruct (is_terminal_state (next_state (class_of c) (new_state r)))
      eqn:Ht.
    + injection H as <-. cbn [resolved iterations]. lia.
    + apply Z.eqb_neq in Hr.
      assert (Hs' : 0 <= next_state (class_of c) (new_state r) <= 13).
      { destruct (edge_fact c _ Hs) as [[Hr' _] | (_ & _ & [Hcont | Hdone])].
        - contradiction.
        - now apply continuation_fact.
        - destruct (done_fact _ Hdone) as (_ & _ & Ht' & _). congruence. }
      apply IH in H; [| exact Hs']. destruct H as [Hit _]. lia.
Qed.

(** C3, the claim as written, refuted on the buffer [a=]: the class of [a]
    is the catch-all class and [is_initial_state_terminal] holds of it, yet
    no run resolves at once with a token of one byte and no iteration of the
    [transition] block; the run classifies the second byte and consumes
    it. *)
Lemma initial_terminal_state_not_resolved_at_once :
  class_of x61 = other_character_class
  /\ is_initial_state_terminal (class_of x61) = true
  /\ ~ (exists o,
          run portable_debug (buffer_of "a=") (lexer_from 0) 3 = Ok o
          /\ iterations o = 0%nat
          /\ consumed (lexer_from 0) (lexer_after o) = 1%nat).
Proof.
  split; [reflexivity |]. split; [reflexivity |].
  intros (o & Hrun & Hit & _). vm_compute in Hrun.
  injection Hrun as <-. discriminate Hit.
Qed.

(** C3 (initial terminal state), as the code has it.  The first state is an
    initial terminal state exactly when the byte under the cursor has the
    catch-all class.  The lookup algorithm then does not resolve at once: in
    both builds the dispatcher sends control to the [transition] block, so
    the run is the loop entered with that first state one byte further on,
    and a run that resolves has classified the byte after the first and
    executed the [transition] block at least once. *)
Theorem initial_terminal_state_is_dispatched cfg mem l fuel c :
  nth_error mem (input_ l) = Some c ->
  (is_initial_state_terminal (class_of c) = true
   <-> class_of c = other_character_class)
  /\ (is_initial_state_terminal (class_of c) = true ->
      goto_dispatch cfg (class_of c) = Ok transition
      /\ run cfg mem l fuel
         = exec_transition cfg mem fuel
             {| input := (input_ l + 1)%nat; old_state := None;
                new_state := class_of c |} 0%nat
      /\ forall o, run cfg mem l fuel = Ok o ->
           (1 <= iterations o)%nat
           /\ exists c', nth_error mem (input_ l + 1) = Some c').
Proof.
  intros Hc. pose proof (class_of_range c) as Hrange.
  assert (Hiff : is_initial_state_terminal (class_of c) = true
                 <-> class_of c = other_character_class).
  { unfold is_initial_state_terminal, other_character_class.
    change bang_equal with 8. rewrite Z.geb_le. lia. }
  split; [exact Hiff |]. intros Hi. apply Hiff in Hi.
  assert (Hrun : run cfg mem l fuel
                 = exec_transition cfg mem fuel
                     {| input := (input_ l + 1)%nat; old_state := None;
                        new_state := class_of c |} 0%nat)
    by (now rewrite run_unfold, Hc).
  split; [| split].
  - rewrite Hi. unfold goto_dispatch.
    destruct (QLJS_LEX_DISPATCH_USE_COMPUTED_GOTO cfg); reflexivity.
  - exact Hrun.
  - intros o Ho. rewrite Hrun in Ho.
    apply exec_transition_reads in Ho; [exact Ho |].
    cbn [new_state]. lia.
Qed.

Lemma initial_terminal_state_is_dispatched_witness :
  (is_initial_state_terminal (class_of x61) = true
   <-> class_of x61 = other_character_class)
  /\ (is_initial_state_terminal (class_of x61) = true ->
      goto_dispatch portable_debug (class_of x61) = Ok transition
      /\ run portable_debug (buffer_of "a=") (lexer_from 0) 3
         = exec_transition portable_debug (buffer_of "a=") 3
             {| input := (input_ (lexer_from 0) + 1)%nat; old_state := None;
                new_state := class_of x61 |} 0%nat
      /\ forall o,
           run portable_debug (buffer_of "a=") (lexer_from 0) 3 = Ok o ->
           (1 <= iterations o)%nat
           /\ exists c',
                nth_error (buffer_of "a=") (input_ (lexer_from 0) + 1)
                = Some c').
Proof.
  apply (initial_terminal_state_is_dispatched portable_debug
           (buffer_of "a=") (lexer_from 0) 3 x61).
  reflexivity.
Defined.

(** C4 (assertion on the first state).  The condition of the assertion on the
    first state holds for every byte, those of the catch-all class included:
    the class of [a] is the catch-all class, and a debug build run on the
    buffer [a] is not stopped by the assertion; it goes on to return the kind
    of [!=] for one byte. *)
Theorem catch_all_start_passes_assertion :
  (forall c, first_state_assertion (class_of c) = true)
  /\ class_of x61 = other_character_class
  /\ forall cg,
       try_parse_current_token
         {| QLJS_LEX_DISPATCH_USE_COMPUTED_GOTO := cg; debug_build := true |}
         (buffer_of "a") (lexer_from 0) 3
       = Ok (true, lexer_at 1 token_type.bang_equal).
Proof.
  split; [| split].
  - intros c. pose proof (class_of_range c).
    unfold first_state_assertion. apply negb_true_iff, Z.eqb_neq.
    change retract with 32. lia.
  - reflexivity.
  - intros []; vm_compute; reflexivity.
Qed.

(** * Instances *)

Ltac in_list := repeat first [left; reflexivity | right].

Ltac no_extension :=
  let H := fresh in
  intros H; apply extendsb_spec in H; vm_compute in H; discriminate H.

Lemma maximal_munch_witness :
  exists b l',
    try_parse_current_token portable_debug (buffer_of ">>>") (lexer_from 0) 3
      = Ok (b, l')
    /\ munch (buffer_of ">>>") (input_ (lexer_from 0))
             (consumed (lexer_from 0) l')
    /\ forall k, munch (buffer_of ">>>") (input_ (lexer_from 0)) k ->
                 (k <= consumed (lexer_from 0) l')%nat.
Proof.
  apply (maximal_munch portable_debug (buffer_of ">>>") (lexer_from 0) 3
           greater).
  - exists (list_byte_of_string ">>>"), x00. split; reflexivity.
  - exists x3e. split; reflexivity.
  - in_list.
  - lia.
Defined.

Lemma bounded_consumption_witness :
  exists b l',
    try_parse_current_token computed_goto_release (buffer_of "x = y >>>= 2")
      (lexer_from 6) 3 = Ok (b, l')
    /\ (1 <= consumed (lexer_from 6) l' <= 4)%nat
    /\ longest_spelling = 4%nat
    /\ In (list_byte_of_string ">>>=") spellings.
Proof.
  apply (bounded_consumption computed_goto_release
           (buffer_of "x = y >>>= 2") (lexer_from 6) 3 greater).
  - exists (list_byte_of_string "x = y >>>= 2"), x00. split; reflexivity.
  - exists x3e. split; reflexivity.
  - discriminate.
  - lia.
Defined.

Lemma transition_loop_terminates_witness :
  exists o,
    run portable_debug (buffer_of ">>>>") (lexer_from 0) longest_spelling
      = Ok o
    /\ (iterations o <= longest_spelling)%nat
    /\ forall fuel, (longest_spelling <= fuel)%nat ->
                    run portable_debug (buffer_of ">>>>") (lexer_from 0) fuel
                    = Ok o.
Proof.
  apply (transition_loop_terminates portable_debug (buffer_of ">>>>")
           (lexer_from 0) greater).
  - exists (list_byte_of_string ">>>>"), x00. split; reflexivity.
  - exists x3e. split; reflexivity.
  - discriminate.
Defined.

Lemma try_parse_returns_true_witness :
  exists E k,
    In (E, k) lexicon
    /\ matches_at (buffer_of "a||b") (input_ (lexer_from 1)) E
    /\ try_parse_current_token portable_debug (buffer_of "a||b")
         (lexer_from 1) 3
       = Ok (true,
             {| input_ := (input_ (lexer_from 1) + length E)%nat;
                last_token_ :=
                  {| type := k;
                     end_ := (input_ (lexer_from 1) + length E)%nat |} |}).
Proof.
  apply (try_parse_returns_true portable_debug (buffer_of "a||b")
           (lexer_from 1) 3 pipe).
  - exists (list_byte_of_string "a||b"), x00. split; reflexivity.
  - exists x7c. split; reflexivity.
  - discriminate.
  - lia.
Defined.

Lemma try_parse_deterministic_witness :
  try_parse_current_token portable_debug (buffer_of "&&=") (lexer_from 0) 3
  = try_parse_current_token computed_goto_release (buffer_of "&&=")
      (lexer_at 0 token_type.plus) 7.
Proof.
  apply (try_parse_deterministic portable_debug computed_goto_release
           (buffer_of "&&=") (lexer_from 0) (lexer_at 0 token_type.plus) 3 7).
  - reflexivity.
  - lia.
  - lia.
Defined.

Lemma lexicon_entry_resolves_witness :
  try_parse_current_token portable_debug (buffer_of "!=x") (lexer_from 0) 3
    = Ok (true,
          lexer_at (input_ (lexer_from 0)
                    + length (list_byte_of_string "!="))
                   token_type.bang_equal)
  /\ consumed (lexer_from 0)
        (lexer_at (input_ (lexer_from 0)
                   + length (list_byte_of_string "!="))
                  token_type.bang_equal)
     = length (list_byte_of_string "!=").
Proof.
  apply (lexicon_entry_resolves portable_debug (buffer_of "!=x")
           (lexer_from 0) 3 (list_byte_of_string "!=")
           token_type.bang_equal x78).
  - in_list.
  - reflexivity.
  - reflexivity.
  - no_extension.
  - lia.
Defined.

Lemma retract_resolves_previous_state_witness :
  exists o s,
    run computed_goto_release (buffer_of ">>+") (lexer_from 0) 3 = Ok o
    /\ try_parse_current_token computed_goto_release (buffer_of ">>+")
         (lexer_from 0) 3
       = Ok (true,
             lexer_at (input_ (lexer_from 0)
                       + length (list_byte_of_string ">>"))
                      token_type.greater_greater)
    /\ consumed (lexer_from 0) (lexer_after o)
       = length (list_byte_of_string ">>")
    /\ retracted o = true
    /\ old_state (final o) = Some s
    /\ new_state (final o) = s
    /\ next_state (class_of x2b) s = retract
    /\ s <> retract
    /\ spelling_of_state s = list_byte_of_string ">>"
    /\ kind_of_state s = token_type.greater_greater.
Proof.
  apply (retract_resolves_previous_state computed_goto_release
           (buffer_of ">>+") (lexer_from 0) 3 (list_byte_of_string ">>")
           token_type.greater_greater x2b).
  - in_list.
  - exists (list_byte_of_string ">>>"). split; [in_list |].
    split; [exists [x3e]; reflexivity | cbn [length list_byte_of_string]; simpl; lia].
  - reflexivity.
  - reflexivity.
  - no_extension.
  - lia.
Defined.

(** ** The assertions of the source and the scenarios of the specification *)

Example static_assert_classes :
  map (fun c => lookup character_class_table (to_uint8 c))
      (list_byte_of_string "!%&+=>^|")
  = map Ok [ bang; percent; ampersand; plus; equal; greater; circumflex; pipe ].
Proof. reflexivity. Qed.

Example state_values :
  ( bang_equal, greater_greater_greater, done_percent_equal
  , done_greater_greater_greater_equal, retract )
  = (8, 13, 78, 91, 32).
Proof. reflexivity. Qed.

Example scenarios cfg :
  map (scan cfg) [ "!x"; "!=x"; "!=="; "=>"; ">>>x"; ">>>="; "||x"; "||=" ]%string
  = map Ok [ (token_type.bang, 1%nat)
           ; (token_type.bang_equal, 2%nat)
           ; (token_type.bang_equal_equal, 3%nat)
           ; (token_type.equal_greater, 2%nat)
           ; (token_type.greater_greater_greater, 3%nat)
           ; (token_type.greater_greater_greater_equal, 4%nat)
           ; (token_type.pipe_pipe, 2%nat)
           ; (token_type.pipe_pipe_equal, 3%nat) ].
Proof. destruct cfg as [[] []]; vm_compute; reflexivity. Qed.


(** * Further properties of the tables *)

Lemma classifier_checked : forallb classifier_ok all_bytes = true.
Proof. vm_compute. reflexivity. Qed.

Lemma rows_checked : forallb row_ok byte_classes = true.
Proof. vm_compute. reflexivity. Qed.

Lemma entries_stop_checked :
  forallb (fun cls => forallb (entry_stops cls) input_states) byte_classes
  = true.
Proof. vm_compute. reflexivity. Qed.

Lemma equal_row_checked :
  forallb (fun s => negb (next_state equal s =? retract)) input_states = true.
Proof. vm_compute. reflexivity. Qed.

Lemma kinds_checked : forallb kind_ok lexicon = true.
Proof. vm_compute. reflexivity. Qed.

Lemma in_operator_bytes c :
  existsb (Byte.eqb c) operator_bytes = true <-> In c operator_bytes.
Proof.
  rewrite existsb_exists. split.
  - intros (x & Hx & H). apply byte_eqb_eq in H. now subst.
  - intros H. exists c. split; [assumption | now apply byte_eqb_eq].
Qed.

(** X1.  The classifier is defined on every byte and yields one of the nine
    classes; it yields an operator class exactly for the eight bytes
    [!%&+=>^|], and the class of such a byte is its position among them, so
    that no two bytes share an operator class. *)
Theorem classifier_exact c :
  lookup character_class_table (to_uint8 c) = Ok (class_of c)
  /\ 0 <= class_of c < character_class_count
  /\ (class_of c <> other_character_class <-> In c operator_bytes)
  /\ (In c operator_bytes ->
      nth_error operator_bytes (Z.to_nat (class_of c)) = Some c)
  /\ (forall c', class_of c' = class_of c ->
                 class_of c <> other_character_class -> c' = c).
Proof.
  assert (Hall : forall b, classifier_ok b = true).
  { intros b. pose proof classifier_checked as H.
    rewrite forallb_forall in H. apply H, all_bytes_complete. }
  assert (Hpos : forall b, class_of b <> other_character_class ->
                 nth_error operator_bytes (Z.to_nat (class_of b)) = Some b).
  { intros b Hb. specialize (Hall b). unfold classifier_ok in Hall.
    cbv zeta in Hall.
    destruct (existsb (Byte.eqb b) operator_bytes).
    - apply andb_true_iff in Hall as [_ Hn].
      destruct (nth_error operator_bytes (Z.to_nat (class_of b)));
        [| discriminate].
      apply byte_eqb_eq in Hn. now subst.
    - apply Z.eqb_eq in Hall. contradiction. }
  split; [apply lookup_class |].
  split; [pose proof (class_of_range c); unfold character_class_count; lia |].
  split; [| split].
  - pose proof (Hall c) as H. unfold classifier_ok in H. cbv zeta in H.
    destruct (existsb (Byte.eqb c) operator_bytes) eqn:He.
    + apply andb_true_iff in H as [Hne _].
      apply negb_true_iff, Z.eqb_neq in Hne.
      apply in_operator_bytes in He. tauto.
    + apply Z.eqb_eq in H. split; [contradiction |].
      intros HIn. apply in_operator_bytes in HIn. congruence.
  - intros HIn. apply Hpos. pose proof (Hall c) as H.
    unfold classifier_ok in H. cbv zeta in H.
    apply in_operator_bytes in HIn. rewrite HIn in H.
    apply andb_true_iff in H as [Hne _].
    now apply negb_true_iff, Z.eqb_neq in Hne.
  - intros c' Heq Hne. pose proof (Hpos c Hne) as H.
    rewrite <- Heq in Hne. pose proof (Hpos c' Hne) as H'.
    rewrite Heq in H'. congruence.
Qed.

Lemma is_terminal_state_false s :
  is_terminal_state s = false <-> s <= 13.
Proof.
  unfold is_terminal_state. change greater_greater_greater with 13.
  rewrite Z.gtb_ltb. apply Z.ltb_ge.
Qed.

(** X2.  [is_terminal_state] tells which states have a column in
    [transition_table]: for a state [s] that is not terminal every byte class
    has an entry, and the entry for [=] is not [retract], so some transition
    leaves [s]; for a terminal state no row has an entry, so no transition
    leaves it. *)
Theorem is_terminal_state_matches_table s :
  0 <= s ->
  (is_terminal_state s = false ->
   (forall cls, In cls byte_classes ->
      (row <- lookup transition_table cls ;; lookup row s)
      = Ok (next_state cls s))
   /\ next_state equal s <> retract)
  /\ (is_terminal_state s = true ->
      forall cls, In cls byte_classes ->
        (row <- lookup transition_table cls ;; lookup row s) = Undefined).
Proof.
  intros Hs. split.
  - intros Ht. apply is_terminal_state_false in Ht. split.
    + intros cls Hcls. apply entry_defined; [now apply in_byte_classes | lia].
    + pose proof equal_row_checked as H. rewrite forallb_forall in H.
      assert (Hin : In s input_states) by (apply in_input_states; lia).
      specialize (H s Hin). now apply negb_true_iff, Z.eqb_neq in H.
  - intros Ht cls Hcls.
    assert (Hge : 14 <= s).
    { destruct (Z.le_gt_cases s 13) as [Hle | Hgt]; [| lia].
      apply is_terminal_state_false in Hle. congruence. }
    pose proof rows_checked as H. rewrite forallb_forall in H.
    specialize (H cls Hcls). unfold row_ok in H.
    destruct (lookup transition_table cls) as [row| | |]; try discriminate.
    apply Z.eqb_eq in H. change input_state_count with 14 in H.
    cbn [bind]. unfold lookup.
    destruct (Z.ltb_spec s 0) as [Hneg | _]; [lia |].
    assert (Hn : nth_error row (Z.to_nat s) = None)
      by (apply nth_error_None; lia).
    now rewrite Hn.
Qed.

(** X3.  On every state [transition_table] holds, the jump through
    [dispatch_table] of the computed-goto build is the jump the portable
    build takes with [is_terminal_state] and the [switch] of [dispatch]. *)
Theorem dispatch_table_matches_switch cls s :
  In cls byte_classes ->
  In s input_states ->
  computed_goto (next_state cls s)
  = Ok (if is_terminal_state (next_state cls s)
        then dispatch (next_state cls s)
        else transition).
Proof.
  intros Hcls Hs. apply in_byte_classes in Hcls. apply in_input_states in Hs.
  destruct (entry_defined cls s Hcls Hs) as [_ Hin].
  apply table_states_cases in Hin. destruct Hin as [Hr | [Hc | Hd]].
  - rewrite Hr. reflexivity.
  - destruct (continuation_fact _ Hc) as (Hrange & _).
    destruct (input_fact _ Hrange) as (Ht & Hsel & _).
    rewrite Ht. unfold computed_goto. now rewrite Hsel.
  - destruct (done_fact _ Hd) as (_ & _ & Ht & Hsel).
    rewrite Ht. unfold computed_goto, dispatch. now rewrite Hsel.
Qed.

Lemma kind_fact E k :
  In (E, k) lexicon ->
  k <> invalid_token_type
  /\ forall E', In (E', k) lexicon -> E' = E.
Proof.
  intros H. pose proof kinds_checked as Hc. rewrite forallb_forall in Hc.
  specialize (Hc _ H). unfold kind_ok in Hc. cbn [fst snd] in Hc.
  apply andb_true_iff in Hc as [Hne Hall]. split.
  - now destruct (token_type.eq_dec k invalid_token_type).
  - intros E' H'. rewrite forallb_forall in Hall. specialize (Hall _ H').
    cbn [fst snd] in Hall.
    destruct (token_type.eq_dec k k); [| contradiction].
    apply bytes_eqb_spec in Hall. now subst.
Qed.

Lemma input_state_depth s :
  0 <= s <= 13 -> (1 <= length (spelling_of_state s) <= 3)%nat.
Proof.
  intros Hs.
  assert (Hin : In s (input_states ++ done_states))
    by (apply in_or_app; left; now apply in_input_states).
  destruct (state_fact s Hin) as (E & k & He & _ & Hlen & _ & _ & H3).
  unfold spelling_of_state. rewrite He. cbn [fst].
  specialize (H3 (proj2 (in_input_states s) Hs)). lia.
Qed.

(** Where the loop goes round again, the state it goes round with is an
    input state one byte deeper in the tree. *)
Lemma next_state_continues c s :
  0 <= s <= 13 ->
  next_state (class_of c) s <> retract ->
  is_terminal_state (next_state (class_of c) s) = false ->
  0 <= next_state (class_of c) s <= 13
  /\ length (spelling_of_state (next_state (class_of c) s))
     = S (length (spelling_of_state s)).
Proof.
  intros Hs Hr Ht.
  destruct (edge_fact c s Hs) as [[Hr' _] | (_ & Hsp & Hst)];
    [contradiction |].
  split.
  - destruct Hst as [Hc | Hd]; [now apply continuation_fact |].
    destruct (done_fact _ Hd) as (_ & _ & Ht' & _). congruence.
  - rewrite Hsp, length_app. cbn [length]. lia.
Qed.

Lemma next_state_done c s :
  0 <= s <= 13 ->
  next_state (class_of c) s <> retract ->
  is_terminal_state (next_state (class_of c) s) = true ->
  In (next_state (class_of c) s) done_states.
Proof.
  intros Hs Hr Ht.
  destruct (edge_fact c s Hs) as [[Hr' _] | (_ & _ & Hst)];
    [contradiction |].
  destruct Hst as [Hc | Hd]; [| assumption].
  destruct (continuation_fact _ Hc) as (Hrange & _).
  destruct (input_fact _ Hrange) as (Ht' & _). congruence.
Qed.

(** * Further properties of the lookup algorithm *)

Lemma exec_transition_outcome cfg mem :
  forall fuel r n,
    0 <= new_state r <= 13 ->
    outcome_ok mem fuel r (exec_transition cfg mem fuel r n).
Proof.
  induction fuel as [|fuel IH]; intros r n Hs;
    pose proof (input_state_depth _ Hs) as Hd.
  - cbn [exec_transition]. unfold outcome_ok. lia.
  - rewrite exec_transition_unfold by assumption.
    destruct (nth_error mem (input r)) as [c|] eqn:Hc.
    2:{ apply nth_error_None in Hc. unfold outcome_ok. lia. }
    assert (Hlt : (input r < length mem)%nat)
      by (apply nth_error_Some; congruence).
    cbv zeta.
    destruct (next_state (class_of c) (new_state r) =? retract) eqn:Hr.
    + unfold outcome_ok.
      cbn [resolved returned final new_state lexer_after input].
      repeat split; try lia.
      apply in_or_app. left. now apply in_input_states.
    + apply Z.eqb_neq in Hr.
      destruct (is_terminal_state (next_state (class_of c) (new_state r)))
        eqn:Ht.
      * unfold outcome_ok.
        cbn [resolved returned final new_state lexer_after input].
        repeat split; try lia.
        apply in_or_app. right. now apply next_state_done.
      * destruct (next_state_continues c _ Hs Hr Ht) as [Hs' Hd'].
        pose proof (input_state_depth _ Hs') as Hd3.
        specialize (IH {| input := (input r + 1)%nat;
                          old_state := Some (new_state r);
                          new_state := next_state (class_of c) (new_state r) |}
                       (S n) Hs').
        unfold outcome_ok in *. cbn [new_state input] in IH.
        rewrite Hd' in IH.
        destruct (exec_transition cfg mem fuel _ (S n)) as [o| | |].
        -- destruct IH as (H1 & H2 & H3 & H4 & H5).
           repeat split; try assumption; lia.
        -- lia.
        -- assumption.
        -- lia.
Qed.

(** X4.  No assertion of the lookup algorithm ever fails: whatever the
    buffer, the cursor, the fuel and the build, a run does not end in a
    failed assertion. *)
Theorem assertions_never_fail cfg mem l fuel :
  run cfg mem l fuel <> AssertionFailure
  /\ try_parse_current_token cfg mem l fuel <> AssertionFailure.
Proof.
  assert (H : run cfg mem l fuel <> AssertionFailure).
  { rewrite run_unfold.
    destruct (nth_error mem (input_ l)) as [c|]; [| discriminate].
    pose proof (class_of_range c) as Hc.
    pose proof (exec_transition_outcome cfg mem fuel
                  {| input := (input_ l + 1)%nat; old_state := None;
                     new_state := class_of c |} 0%nat) as Ho.
    cbn [new_state] in Ho. specialize (Ho ltac:(lia)).
    intros Hf. rewrite Hf in Ho. exact Ho. }
  split; [assumption |].
  unfold try_parse_current_token.
  destruct (run cfg mem l fuel); cbn [bind]; congruence.
Qed.

(** X5.  Whenever a call returns, on any buffer and from any cursor, it
    returns [true], it has consumed at least one byte and at most four, the
    cursor is still within the buffer, the token ends at the cursor, and the
    kind of the token is not the invalid kind. *)
Theorem returned_token_is_sound cfg mem l fuel b l' :
  try_parse_current_token cfg mem l fuel = Ok (b, l') ->
  b = true
  /\ (input_ l + 1 <= input_ l' <= input_ l + 4)%nat
  /\ (input_ l' <= length mem)%nat
  /\ end_ (last_token_ l') = input_ l'
  /\ type (last_token_ l') <> invalid_token_type.
Proof.
  unfold try_parse_current_token. rewrite run_unfold.
  destruct (nth_error mem (input_ l)) as [c|]; [| discriminate].
  pose proof (class_of_range c) as Hc.
  assert (Hs : 0 <= class_of c <= 13) by lia.
  pose proof (input_state_depth _ Hs) as Hd.
  pose proof (exec_transition_outcome cfg mem fuel
                {| input := (input_ l + 1)%nat; old_state := None;
                   new_state := class_of c |} 0%nat Hs) as Ho.
  destruct (exec_transition cfg mem fuel _ 0%nat) as [o| | |];
    try discriminate.
  cbn [bind]. intros [= <- <-]. unfold outcome_ok in Ho.
  cbn [new_state input] in Ho. destruct Ho as (H1 & H2 & H3 & H4 & H5).
  rewrite H3. unfold lexer_at. cbn [input_ last_token_ end_ type].
  repeat split; try assumption; try lia.
  destruct (entry_in_lexicon _ H2) as [Hlex _].
  now apply (kind_fact _ _ Hlex).
Qed.

(** X6.  The table lookups and the locals are always defined: on a buffer
    with four bytes from the cursor on, whatever those bytes are, a call with
    fuel for three iterations returns. *)
Theorem four_bytes_suffice cfg mem l fuel :
  (input_ l + 4 <= length mem)%nat ->
  (3 <= fuel)%nat ->
  exists l', try_parse_current_token cfg mem l fuel = Ok (true, l').
Proof.
  intros Hlen Hf. unfold try_parse_current_token. rewrite run_unfold.
  destruct (nth_error mem (input_ l)) as [c|] eqn:Hc.
  2:{ apply nth_error_None in Hc. lia. }
  pose proof (class_of_range c) as Hcls.
  assert (Hs : 0 <= class_of c <= 13) by lia.
  pose proof (input_state_depth _ Hs) as Hd.
  pose proof (exec_transition_outcome cfg mem fuel
                {| input := (input_ l + 1)%nat; old_state := None;
                   new_state := class_of c |} 0%nat Hs) as Ho.
  unfold outcome_ok in Ho. cbn [new_state input] in Ho.
  destruct (exec_transition cfg mem fuel _ 0%nat) as [o| | |];
    [| lia | contradiction | lia].
  destruct Ho as (H1 & _). cbn [bind]. rewrite H1. now exists (lexer_after o).
Qed.

(** The loop reads the buffer through a window of four bytes from the
    start of the token. *)
Lemma exec_transition_local cfg mem mem' p p' :
  (forall j, (j < 4)%nat -> nth_error mem (p + j) = nth_error mem' (p' + j)) ->
  forall fuel s k os os' n,
    0 <= s <= 13 ->
    (k <= length (spelling_of_state s))%nat ->
    observe p (o <- exec_transition cfg mem fuel
                      {| input := (p + k)%nat; old_state := os;
                         new_state := s |} n ;;
               Ok (returned o, lexer_after o))
    = observe p' (o <- exec_transition cfg mem' fuel
                         {| input := (p' + k)%nat; old_state := os';
                            new_state := s |} n ;;
                  Ok (returned o, lexer_after o)).
Proof.
  intros Hwin. induction fuel as [|fuel IH]; intros s k os os' n Hs Hk;
    [reflexivity |].
  pose proof (input_state_depth _ Hs) as Hd.
  rewrite !exec_transition_unfold by assumption. cbn [input new_state].
  rewrite (Hwin k) by lia.
  destruct (nth_error mem' (p' + k)) as [c|]; [| reflexivity].
  cbv zeta. destruct (next_state (class_of c) s =? retract) eqn:Hr.
  - unfold observe, resolved.
    cbn [bind returned lexer_after fst snd last_token_ type input_ input
         new_state].
    replace (p + k - p)%nat with k by lia.
    now replace (p' + k - p')%nat with k by lia.
  - apply Z.eqb_neq in Hr.
    destruct (is_terminal_state (next_state (class_of c) s)) eqn:Ht.
    + unfold observe, resolved.
      cbn [bind returned lexer_after fst snd last_token_ type input_ input
           new_state].
      replace (p + k + 1 - p)%nat with (S k) by lia.
      now replace (p' + k + 1 - p')%nat with (S k) by lia.
    + destruct (next_state_continues c s Hs Hr Ht) as [Hs' Hd'].
      replace (p + k + 1)%nat with (p + S k)%nat by lia.
      replace (p' + k + 1)%nat with (p' + S k)%nat by lia.
      apply IH; [assumption | lia].
Qed.

(** X7.  A call looks at no more than four bytes: on two buffers that hold
    the same four bytes from their cursors on (or end the same way within
    them), two calls return the same value, the same kind and the same
    number of consumed bytes, or are both undefined. *)
Theorem lookahead_is_four_bytes cfg mem mem' l l' fuel :
  bytes_at mem (input_ l) 4 = bytes_at mem' (input_ l') 4 ->
  observe (input_ l) (try_parse_current_token cfg mem l fuel)
  = observe (input_ l') (try_parse_current_token cfg mem' l' fuel).
Proof.
  intros Hb.
  assert (Hwin : forall j, (j < 4)%nat ->
            nth_error mem (input_ l + j) = nth_error mem' (input_ l' + j)).
  { intros j Hj. rewrite <- !(bytes_at_nth _ _ 4 j Hj). now rewrite Hb. }
  unfold try_parse_current_token. rewrite !run_unfold.
  pose proof (Hwin 0%nat ltac:(lia)) as H0. rewrite !Nat.add_0_r in H0.
  rewrite H0.
  destruct (nth_error mem' (input_ l')) as [c|]; [| reflexivity].
  pose proof (class_of_range c) as Hcls.
  assert (Hs : 0 <= class_of c <= 13) by lia.
  pose proof (input_state_depth _ Hs) as Hd.
  apply (exec_transition_local cfg mem mem' (input_ l) (input_ l') Hwin fuel
           (class_of c) 1%nat None None 0%nat Hs).
  lia.
Qed.

(** X8.  Within the contract a call never consumes a byte of the catch-all
    class: every byte between the old cursor and the new one has an operator
    class, and the new cursor is still inside the buffer, at the sentinel at
    the latest. *)
Theorem sentinel_never_consumed cfg mem l fuel cls :
  sentinel_terminated mem ->
  first_class mem l cls ->
  cls <> other_character_class ->
  (3 <= fuel)%nat ->
  exists l',
    try_parse_current_token cfg mem l fuel = Ok (true, l')
    /\ (input_ l' < length mem)%nat
    /\ forall i, (input_ l <= i < input_ l')%nat ->
         exists c, nth_error mem i = Some c
                   /\ class_of c <> other_character_class.
Proof.
  intros Hsent Hfirst Hcls Hf.
  destruct (valid_call_resolves cfg mem l fuel cls Hsent Hfirst Hcls Hf)
    as (o & Hrun & Hres).
  destruct Hres as (Hin & _ & Hm & _ & Hret & Hl & _).
  destruct (entry_in_lexicon _ Hin) as [_ HE].
  exists (lexer_after o). split.
  - rewrite (try_parse_of_run _ _ _ _ _ Hrun). now rewrite Hret.
  - rewrite Hl. cbn [input_]. split.
    + exact (sentinel_readable mem (input_ l) Hsent _ HE Hm).
    + intros i Hi.
      set (E := spelling_of_state (new_state (final o))) in *.
      assert (Hj : (i - input_ l < length E)%nat) by lia.
      pose proof (matches_at_nth _ _ _ _ Hm Hj) as Hn.
      replace (input_ l + (i - input_ l))%nat with i in Hn by lia.
      destruct (nth_error E (i - input_ l)) as [c|] eqn:Hc.
      2:{ apply nth_error_None in Hc. lia. }
      exists c. split; [assumption |].
      apply (spelling_classes E HE). now apply nth_error_In in Hc.
Qed.


(** X10.  Only the bytes [&], [+], [=], [>] and [|] can go on an operator:
    in whatever input state the [transition] block finds any other byte, it
    retracts, resolving with the state it held and leaving the cursor on
    that byte. *)
Theorem non_continuing_byte_retracts cfg mem fuel r n c :
  0 <= new_state r <= 13 ->
  nth_error mem (input r) = Some c ->
  ~ In (class_of c) continuing_classes ->
  exec_transition cfg mem (S fuel) r n
  = Ok (resolved {| input := input r; old_state := Some (new_state r);
                    new_state := new_state r |} true (S n)).
Proof.
  intros Hs Hc Hcls. rewrite exec_transition_unfold by assumption.
  rewrite Hc. cbv zeta.
  pose proof entries_stop_checked as H. rewrite forallb_forall in H.
  specialize (H _ (proj2 (in_byte_classes _) (class_of_range c))).
  rewrite forallb_forall in H.
  specialize (H _ (proj2 (in_input_states _) Hs)).
  unfold entry_stops in H. apply orb_true_iff in H. destruct H as [H | H].
  - apply in_Zlist_spec in H. contradiction.
  - now rewrite H.
Qed.

(** ** The lookup algorithm against longest match *)

Lemma longest_prefix_entry_sound entries rest e :
  longest_prefix_entry entries rest = Some e ->
  In e entries /\ is_prefix_of (fst e) rest.
Proof.
  revert e. induction entries as [|e0 entries IH]; intros e; cbn [longest_prefix_entry fold_right].
  - discriminate.
  - fold (longest_prefix_entry entries rest).
    destruct (prefixb (fst e0) rest) eqn:Hp.
    + destruct (longest_prefix_entry entries rest) as [e'|].
      * destruct (length (fst e0) <? length (fst e'))%nat.
        -- intros H. destruct (IH e H) as [HIn Hpre]. split; [now right | assumption].
        -- intros [= <-]. split; [now left | now apply prefixb_spec].
      * intros [= <-]. split; [now left | now apply prefixb_spec].
    + intros H. destruct (IH e H) as [HIn Hpre]. split; [now right | assumption].
Qed.

Lemma longest_prefix_entry_longest entries rest e :
  In e entries -> is_prefix_of (fst e) rest ->
  exists e', longest_prefix_entry entries rest = Some e'
             /\ (length (fst e) <= length (fst e'))%nat.
Proof.
  induction entries as [|e0 entries IH]; intros HIn Hpre; [contradiction |].
  cbn [longest_prefix_entry fold_right].
  fold (longest_prefix_entry entries rest).
  destruct HIn as [-> | HIn].
  - apply prefixb_spec in Hpre. rewrite Hpre.
    destruct (longest_prefix_entry entries rest) as [e'|].
    + destruct (Nat.ltb_spec (length (fst e)) (length (fst e'))).
      * exists e'. split; [reflexivity | lia].
      * exists e. split; [reflexivity | lia].
    + exists e. split; [reflexivity | lia].
  - destruct (IH HIn Hpre) as (e' & He' & Hlen). rewrite He'.
    destruct (prefixb (fst e0) rest).
    + destruct (Nat.ltb_spec (length (fst e0)) (length (fst e'))).
      * exists e'. split; [reflexivity | assumption].
      * exists e0. split; [reflexivity | lia].
    + exists e'. split; [reflexivity | assumption].
Qed.

Lemma matches_at_is_prefix mem p E :
  matches_at mem p E <-> is_prefix_of E (skipn p mem).
Proof.
  unfold matches_at, bytes_at. split.
  - intros H. exists (skipn (length E) (skipn p mem)).
    rewrite <- H at 1. symmetry. apply firstn_skipn.
  - intros [t ->]. rewrite firstn_app, Nat.sub_diag, firstn_all.
    cbn [firstn]. apply app_nil_r.
Qed.

(** X11.  Within the contract the lookup algorithm is longest match against
    the lexicon: the entry longest match finds on the bytes from the cursor
    on is the one whose kind the call returns and past which it leaves the
    cursor and the token end. *)
Theorem try_parse_is_longest_match cfg mem l fuel cls :
  sentinel_terminated mem ->
  first_class mem l cls ->
  cls <> other_character_class ->
  (3 <= fuel)%nat ->
  exists E k,
    longest_match mem (input_ l) = Some (E, k)
    /\ try_parse_current_token cfg mem l fuel
       = Ok (true, lexer_at (input_ l + length E) k).
Proof.
  intros Hsent Hfirst Hcls Hf.
  destruct (valid_call_resolves cfg mem l fuel cls Hsent Hfirst Hcls Hf)
    as (o & Hrun & Hres).
  destruct Hres as (_ & Hlex & Hm & Hn & Hret & Hl & _).
  set (Ef := spelling_of_state (new_state (final o))) in *.
  set (kf := kind_of_state (new_state (final o))) in *.
  destruct (longest_prefix_entry_longest lexicon (skipn (input_ l) mem)
              (Ef, kf) Hlex (proj1 (matches_at_is_prefix _ _ _) Hm))
    as ([E k] & Hlm & Hlen).
  destruct (longest_prefix_entry_sound _ _ _ Hlm) as [HIn Hpre].
  cbn [fst] in Hlen, Hpre. apply matches_at_is_prefix in Hpre.
  assert (Heq : E = Ef).
  { destruct (Nat.eq_dec (length Ef) (length E)) as [He | Hne].
    - unfold matches_at in Hm, Hpre. rewrite <- Hm, <- Hpre. now rewrite He.
    - assert (Hlt : (length Ef < length E)%nat) by lia.
      destruct (matches_at_extends _ _ _ _ Hm Hpre
                  (in_lexicon_spellings _ _ HIn) Hlt) as (c & Hc & Hx).
      now destruct (Hn c Hc). }
  subst E. pose proof (lexicon_functional _ _ _ HIn Hlex) as ->.
  exists Ef, kf. split; [exact Hlm |].
  rewrite (try_parse_of_run _ _ _ _ _ Hrun). now rewrite Hret, Hl.
Qed.

(** * Instances of the further properties *)

Lemma is_terminal_state_matches_table_witness :
  (is_terminal_state greater_greater_greater = false ->
   (forall cls, In cls byte_classes ->
      (row <- lookup transition_table cls ;;
       lookup row greater_greater_greater)
      = Ok (next_state cls greater_greater_greater))
   /\ next_state equal greater_greater_greater <> retract)
  /\ (is_terminal_state greater_greater_greater = true ->
      forall cls, In cls byte_classes ->
        (row <- lookup transition_table cls ;;
         lookup row greater_greater_greater) = Undefined).
Proof.
  apply (is_terminal_state_matches_table greater_greater_greater).
  vm_compute. discriminate.
Defined.

Lemma dispatch_table_matches_switch_witness :
  computed_goto (next_state greater greater_greater)
  = Ok (if is_terminal_state (next_state greater greater_greater)
        then dispatch (next_state greater greater_greater)
        else transition).
Proof.
  apply (dispatch_table_matches_switch greater greater_greater).
  - in_list.
  - in_list.
Defined.

Lemma returned_token_is_sound_witness :
  true = true
  /\ (input_ (lexer_from 0) + 1
      <= input_ (lexer_at 2 token_type.bang_equal_equal)
      <= input_ (lexer_from 0) + 4)%nat
  /\ (input_ (lexer_at 2 token_type.bang_equal_equal)
      <= length (buffer_of "a="))%nat
  /\ end_ (last_token_ (lexer_at 2 token_type.bang_equal_equal))
     = input_ (lexer_at 2 token_type.bang_equal_equal)
  /\ type (last_token_ (lexer_at 2 token_type.bang_equal_equal))
     <> invalid_token_type.
Proof.
  apply (returned_token_is_sound portable_debug (buffer_of "a=")
           (lexer_from 0) 3 true (lexer_at 2 token_type.bang_equal_equal)).
  vm_compute. reflexivity.
Defined.

Lemma four_bytes_suffice_witness :
  exists l',
    try_parse_current_token computed_goto_release
      (list_byte_of_string "a|b|") (lexer_from 0) 3 = Ok (true, l').
Proof.
  apply (four_bytes_suffice computed_goto_release
           (list_byte_of_string "a|b|") (lexer_from 0) 3).
  - vm_compute. lia.
  - lia.
Defined.

Lemma lookahead_is_four_bytes_witness :
  observe (input_ (lexer_from 0))
    (try_parse_current_token portable_debug (buffer_of ">>>=>>") (lexer_from 0) 3)
  = observe (input_ (lexer_from 2))
      (try_parse_current_token portable_debug
         (list_byte_of_string "x=>>>=") (lexer_from 2) 3).
Proof.
  apply (lookahead_is_four_bytes portable_debug (buffer_of ">>>=>>")
           (list_byte_of_string "x=>>>=") (lexer_from 0) (lexer_from 2) 3).
  reflexivity.
Defined.

Lemma sentinel_never_consumed_witness :
  exists l',
    try_parse_current_token portable_debug (buffer_of "&&") (lexer_from 0) 3
      = Ok (true, l')
    /\ (input_ l' < length (buffer_of "&&"))%nat
    /\ forall i, (input_ (lexer_from 0) <= i < input_ l')%nat ->
         exists c, nth_error (buffer_of "&&") i = Some c
                   /\ class_of c <> other_character_class.
Proof.
  apply (sentinel_never_consumed portable_debug (buffer_of "&&")
           (lexer_from 0) 3 ampersand).
  - exists (list_byte_of_string "&&"), x00. split; reflexivity.
  - exists x26. split; reflexivity.
  - discriminate.
  - lia.
Defined.


Lemma non_continuing_byte_retracts_witness :
  exec_transition portable_debug (buffer_of ">>!") 1
    {| input := 2; old_state := Some greater; new_state := greater_greater |}
    1
  = Ok (resolved
          {| input := input {| input := 2; old_state := Some greater;
                               new_state := greater_greater |};
             old_state := Some (new_state
                                  {| input := 2; old_state := Some greater;
                                     new_state := greater_greater |});
             new_state := new_state
                            {| input := 2; old_state := Some greater;
                               new_state := greater_greater |} |}
          true 2).
Proof.
  apply (non_continuing_byte_retracts portable_debug (buffer_of ">>!") 0
           {| input := 2; old_state := Some greater;
              new_state := greater_greater |} 1%nat x21).
  - vm_compute. split; discriminate.
  - reflexivity.
  - intros H. apply in_Zlist_spec in H. vm_compute in H. discriminate H.
Defined.

Lemma try_parse_is_longest_match_witness :
  exists E k,
    longest_match (buffer_of "x ||= y") (input_ (lexer_from 2)) = Some (E, k)
    /\ try_parse_current_token computed_goto_release (buffer_of "x ||= y")
         (lexer_from 2) 3
       = Ok (true, lexer_at (input_ (lexer_from 2) + length E) k).
Proof.
  apply (try_parse_is_longest_match computed_goto_release
           (buffer_of "x ||= y") (lexer_from 2) 3 pipe).
  - exists (list_byte_of_string "x ||= y"), x00. split; reflexivity.
  - exists x7c. split; reflexivity.
  - discriminate.
  - lia.
Defined.
